(** * Moderation-notice relay: the webhook handler of the chat server

    A shallow embedding of the server's moderation core
    (redaction, flag memory, notice dispatch, webhook handler) and the
    properties its specification states about it. *)

From Stdlib Require Import String Ascii.
From Stdlib Require Import List NArith ZArith Bool Lia.
From Equations Require Import Equations.
Import ListNotations.

Set Warnings "-register-all".

(** ** JavaScript strings

    A JavaScript string is a sequence of UTF-16 code units; [slice],
    [split], [m[0]] and the regular-expression matcher all work on code
    units. *)

Definition jsstring := list N.

(** An ASCII literal as a JavaScript string. *)
Definition js (s : string) : jsstring :=
  map N_of_ascii (list_ascii_of_string s).
Arguments js s%_string.

Fixpoint str_eqb (a b : jsstring) : bool :=
  match a, b with
  | [], [] => true
  | x :: a', y :: b' => N.eqb x y && str_eqb a' b'
  | _, _ => false
  end.

Definition head_opt (s : jsstring) : option N :=
  match s with [] => None | c :: _ => Some c end.

Fixpoint last_opt (s : jsstring) : option N :=
  match s with
  | [] => None
  | [c] => Some c
  | _ :: s' => last_opt s'
  end.

(** ** The regular expressions
    [/\b(fuck|shit|bitch|asshole|dick|bastard|cunt)\b/] with flags [i]
    ([PROFANITY_RE]) and [gi] ([REDACT_RE]). *)

Module RegExp.

(** [\w] without the [u] flag: [A-Za-z0-9_]. *)
Definition is_word_char (c : N) : bool :=
  ((48 <=? c) && (c <=? 57) || (65 <=? c) && (c <=? 90) ||
   (c =? 95) || (97 <=? c) && (c <=? 122))%N.

Definition is_word (o : option N) : bool :=
  match o with Some c => is_word_char c | None => false end.

(** [\b]: exactly one of the code units before and after the position is
    a word character; the positions before the start and after the end of
    the input count as non-word. *)
Definition word_boundary (prev next : option N) : bool :=
  xorb (is_word prev) (is_word next).

(** Canonicalize of the [i] flag without [u]: the upper-case mapping,
    never taking a code unit of 128 or more to one below 128.  Only the
    ASCII letters are mapped here: every pattern character is an ASCII
    letter, no other code unit canonicalizes to an ASCII letter, so the
    mapping of the code units from 128 on decides no match. *)
Definition canonicalize (c : N) : N :=
  if ((97 <=? c) && (c <=? 122))%N then (c - 32)%N else c.

(** A literal alternative matched at the head of [s]: the matched text
    and the rest of the input. *)
Fixpoint match_literal (pat s : jsstring) : option (jsstring * jsstring) :=
  match pat, s with
  | [], _ => Some ([], s)
  | p :: pat', c :: s' =>
      if (canonicalize p =? canonicalize c)%N then
        match match_literal pat' s' with
        | Some (m, r) => Some (c :: m, r)
        | None => None
        end
      else None
  | _ :: _, [] => None
  end.

Definition TOKENS : list jsstring :=
  map js ["fuck"; "shit"; "bitch"; "asshole"; "dick"; "bastard"; "cunt"]%string.

(** [(t1|t2|...)\b]: the alternatives in order, backtracking to the next
    one when the closing [\b] fails. *)
Fixpoint match_alternatives (toks : list jsstring) (s : jsstring)
  : option (jsstring * jsstring) :=
  match toks with
  | [] => None
  | t :: ts =>
      match match_literal t s with
      | Some (m, r) =>
          if word_boundary (last_opt m) (head_opt r) then Some (m, r)
          else match_alternatives ts s
      | None => match_alternatives ts s
      end
  end.

(** The whole pattern tried at one position: [prev] is the code unit
    before the position, [s] the input from the position on. *)
Definition match_at (prev : option N) (s : jsstring)
  : option (jsstring * jsstring) :=
  if word_boundary prev (head_opt s) then match_alternatives TOKENS s else None.

(** [re.test(s)] for the non-global [PROFANITY_RE]: the first position,
    from index 0, where the pattern matches. *)
Fixpoint search (prev : option N) (s : jsstring) : bool :=
  match match_at prev s with
  | Some _ => true
  | None =>
      match s with
      | [] => false
      | c :: s' => search (Some c) s'
      end
  end.

Definition test (s : jsstring) : bool := search None s.

Lemma match_literal_app pat s m r :
  match_literal pat s = Some (m, r) -> s = m ++ r /\ length m = length pat.
Proof.
  revert s m r. induction pat as [|p pat IH]; intros s m r H; simpl in H.
  - inversion H; subst. split; reflexivity.
  - destruct s as [|c s']; [discriminate|].
    destruct (canonicalize p =? canonicalize c)%N; [|discriminate].
    destruct (match_literal pat s') as [[m' r']|] eqn:E; [|discriminate].
    inversion H; subst. destruct (IH _ _ _ E) as [-> Hl].
    split; simpl; congruence.
Qed.

Lemma match_alternatives_app toks s m r :
  Forall (fun t => t <> []) toks ->
  match_alternatives toks s = Some (m, r) -> s = m ++ r /\ m <> [].
Proof.
  induction 1 as [|t ts Ht _ IH]; simpl; [discriminate|].
  destruct (match_literal t s) as [[m' r']|] eqn:E; [|exact IH].
  destruct (word_boundary (last_opt m') (head_opt r')); [|exact IH].
  intros H; inversion H; subst. destruct (match_literal_app _ _ _ _ E) as [-> Hl].
  split; [reflexivity|]. intros ->. destruct t; [congruence|discriminate].
Qed.

Lemma TOKENS_nonempty : Forall (fun t : jsstring => t <> []) TOKENS.
Proof. repeat constructor; discriminate. Qed.

Lemma match_at_app prev s m r :
  match_at prev s = Some (m, r) -> s = m ++ r /\ m <> [].
Proof.
  unfold match_at. destruct (word_boundary prev (head_opt s)); [|discriminate].
  apply match_alternatives_app, TOKENS_nonempty.
Qed.

Lemma match_at_shorter prev s m r :
  match_at prev s = Some (m, r) -> length r < length s.
Proof.
  intros H. destruct (match_at_app _ _ _ _ H) as [-> Hm].
  rewrite length_app. destruct m; [congruence|simpl; lia].
Qed.

(** A value together with the equation that names it: the termination
    argument of [replace_loop] reads the match result from it. *)
Definition inspect {A} (a : A) : {b : A | a = b} := exist _ a eq_refl.

(** [s.replace(REDACT_RE, (m) => m[0] + '***')]: with the [g] flag the
    matcher runs from index 0; after a match it resumes at the end of
    the match (no match is empty), and where the pattern does not match
    the code unit is kept and the next position is tried. *)
Equations? replace_loop (prev : option N) (s : jsstring) : jsstring
  by wf (length s) lt :=
  replace_loop prev [] := [];
  replace_loop prev (c :: s') with inspect (match_at prev (c :: s')) := {
    | exist _ (Some (m, r)) Hm :=
        (firstn 1 m ++ js "***") ++ replace_loop (last_opt m) r;
    | exist _ None _ := c :: replace_loop (Some c) s' }.
Proof.
  apply (match_at_shorter _ _ _ _ Hm).
Qed.

End RegExp.

(** [const redact = (s = '') => s.replace(REDACT_RE, (m) => m[0] + '***')] *)
Definition redact (s : jsstring) : jsstring := RegExp.replace_loop None s.

(** [s.split(':')]: the pieces between every occurrence of the separator. *)
Fixpoint split (sep : N) (s : jsstring) : list jsstring :=
  match s with
  | [] => [[]]
  | c :: s' =>
      if (c =? sep)%N then [] :: split sep s'
      else match split sep s' with
           | p :: ps => (c :: p) :: ps
           | [] => [[c]]
           end
  end.

Definition COLON : N := 58.

(** [const [type, chId] = String(cid).split(':')]: the first two elements
    of the array, [undefined] where the array is too short. *)
Definition split_cid (cid : jsstring) : option jsstring * option jsstring :=
  let parts := split COLON cid in (nth_error parts 0, nth_error parts 1).

(** ** JavaScript values

    The number values are left to the host: the server only tests them
    for truthiness and uses them as [Map] keys (SameValueZero, under which
    [number] is taken). *)

Class Numbers : Type := {
  number : Type;
  number_eq_dec : forall x y : number, {x = y} + {x <> y};
  number_falsy : number -> bool  (* 0, -0 and NaN *)
}.

(** Objects and arrays carry their identity [ref]: two objects are the
    same [Map] key only when they are the same object. *)
Inductive value `{Numbers} : Type :=
| VUndefined
| VNull
| VBoolean (b : bool)
| VNumber (n : number)
| VString (s : jsstring)
| VArray (ref : nat) (items : list value)
| VObject (ref : nat) (props : list (jsstring * value)).

(** The built-ins of the host that the server calls and this development
    does not spell out. *)
Class Builtins `{Numbers} : Type := {
  (** [String(v)] and [`${v}`] on a value that is not a string;
      [None] is a thrown TypeError. *)
  ToString_other : value -> option jsstring;
  (** [JSON.parse(buf.toString('utf8'))] on the bytes of a Buffer;
      [None] is a thrown SyntaxError. *)
  JSON_parse : list N -> option value
}.

Section Values.
Context `{Numbers}.

Definition truthy (v : value) : bool :=
  match v with
  | VUndefined | VNull => false
  | VBoolean b => b
  | VNumber n => negb (number_falsy n)
  | VString s => match s with [] => false | _ => true end
  | VArray _ _ | VObject _ _ => true
  end.

Fixpoint lookup_prop (k : jsstring) (props : list (jsstring * value)) : value :=
  match props with
  | [] => VUndefined
  | (k', v) :: rest => if str_eqb k k' then v else lookup_prop k rest
  end.

(** [v?.k], and [v.k] on a truthy [v], for the property names the
    server reads ([type], [message], [user], [id], [cid], [text], [item],
    [recommended_action], [message_id]): none of them is a property of a
    primitive, of an array or of [Object.prototype]. *)
Definition get (v : value) (k : string) : value :=
  match v with
  | VObject _ props => lookup_prop (js k) props
  | _ => VUndefined
  end.

(** [v === 'lit'] *)
Definition is_str (v : value) (lit : string) : bool :=
  match v with
  | VString s => str_eqb s (js lit)
  | _ => false
  end.

(** SameValueZero, the key equality of [Map] and [Set]. *)
Definition same_value_zero (a b : value) : bool :=
  match a, b with
  | VUndefined, VUndefined => true
  | VNull, VNull => true
  | VBoolean x, VBoolean y => Bool.eqb x y
  | VNumber x, VNumber y => if number_eq_dec x y then true else false
  | VString x, VString y => str_eqb x y
  | VArray r _, VArray r' _ => Nat.eqb r r'
  | VObject r _, VObject r' _ => Nat.eqb r r'
  | _, _ => false
  end.

(** [Map]: entries in insertion order, one per key. *)
Fixpoint Map_get (k : value) (m : list (value * Z)) : option Z :=
  match m with
  | [] => None
  | (k', t) :: rest => if same_value_zero k k' then Some t else Map_get k rest
  end.

Fixpoint Map_set (k : value) (t : Z) (m : list (value * Z)) : list (value * Z) :=
  match m with
  | [] => [(k, t)]
  | (k', t') :: rest =>
      if same_value_zero k k' then (k', t) :: rest
      else (k', t') :: Map_set k t rest
  end.

Definition Map_delete (k : value) (m : list (value * Z)) : list (value * Z) :=
  filter (fun e => negb (same_value_zero k (fst e))) m.

(** [Set] *)
Definition Set_add (k : value) (s : list value) : list value :=
  if existsb (same_value_zero k) s then s else s ++ [k].

Definition Set_delete (k : value) (s : list value) : list value :=
  filter (fun e => negb (same_value_zero k e)) s.

End Values.

Arguments get {_} v k%_string.
Arguments is_str {_} v lit%_string.

(** ** The world of the server *)

(** The calls the server makes to the chat backend. *)
Inductive Call `{Numbers} : Type :=
| flagMessage (id : value) (user_id : jsstring)
| getMessage (id : value)
(** [ch.sendMessage({text, type, user_id})] on the handle [ch] that
    [serverClient.channel(type, chId)] returned. *)
| sendMessage (ch_type ch_id : option jsstring)
              (text : jsstring) (msg_type : jsstring) (user_id : jsstring).

Inductive LogLine : Type :=
| log_parse_error          (* console.error('[webhook] parse error', e) *)
| log_fallback_flag_failed (* console.warn('[webhook] fallback flag failed:', ...) *).

(** What the server does not control: the readings of [Date.now()], one
    per call; the backend's answer to each call ([None]: the call
    rejects or throws), by the number of calls made before it; and
    whether the client's synchronous [serverClient.channel(type, chId)]
    returns a handle for the two names or throws, which it decides from
    the names without a call to the backend. *)
Record Env `{Numbers} : Type := {
  clock : nat -> Z;
  backend : nat -> option value;
  channel_allowed : option jsstring -> option jsstring -> bool
}.

Record World `{Numbers} : Type := {
  flaggedCache : list value;          (* new Set() *)
  cacheTimes : list (value * Z);      (* new Map() *)
  ticks : nat;                        (* readings of Date.now() so far *)
  outbox : list Call;                 (* calls made to the backend, oldest first *)
  console : list LogLine
}.

Section WorldUpdates.
Context `{Numbers}.

(** One more reading of the clock. *)
Definition world_tick (w : World) : World :=
  {| flaggedCache := flaggedCache w; cacheTimes := cacheTimes w;
     ticks := S (ticks w); outbox := outbox w; console := console w |}.

Definition world_log (l : LogLine) (w : World) : World :=
  {| flaggedCache := flaggedCache w; cacheTimes := cacheTimes w;
     ticks := ticks w; outbox := outbox w; console := console w ++ [l] |}.

Definition world_call (c : Call) (w : World) : World :=
  {| flaggedCache := flaggedCache w; cacheTimes := cacheTimes w;
     ticks := ticks w; outbox := outbox w ++ [c]; console := console w |}.

Definition world_caches (f : list value -> list value)
    (g : list (value * Z) -> list (value * Z)) (w : World) : World :=
  {| flaggedCache := f (flaggedCache w); cacheTimes := g (cacheTimes w);
     ticks := ticks w; outbox := outbox w; console := console w |}.

End WorldUpdates.

(** What is thrown: a TypeError of the language, or an error of the chat
    client (a rejected call, a channel it refuses). *)
Inductive exn : Type := TypeError | BackendError.

Inductive result (A : Type) : Type :=
| Ok (a : A)
| Threw (e : exn).
Arguments Ok {A} a.
Arguments Threw {A} e.

(** Code that reads and writes the world and may throw. *)
Definition M `{Numbers} (A : Type) : Type := World -> result A * World.

Section Monad.
Context `{Numbers}.

Definition ret {A} (a : A) : M A := fun w => (Ok a, w).

Definition throw {A} (e : exn) : M A := fun w => (Threw e, w).

Definition bind {A B} (m : M A) (k : A -> M B) : M B :=
  fun w => match m w with
           | (Ok a, w') => k a w'
           | (Threw e, w') => (Threw e, w')
           end.

(** [try { m } catch (e) { h e }] *)
Definition try_catch {A} (m : M A) (h : exn -> M A) : M A :=
  fun w => match m w with
           | (Ok a, w') => (Ok a, w')
           | (Threw e, w') => h e w'
           end.

End Monad.

Notation "x <- m ;; k" := (bind m (fun x => k))
  (at level 61, m at next level, right associativity).
Notation "m ;; k" := (bind m (fun _ => k))
  (at level 61, right associativity).

(** ** The server *)

Definition FLAG_TTL_MS : Z := 5 * 60 * 1000.

Record Response : Type := { status : Z; body : jsstring }.

(** [req.body]: a Buffer (the raw bytes) or whatever else the
    middleware left there. *)
Inductive Body `{Numbers} : Type :=
| BufferBody (bytes : list N)
| OtherBody (v : value).

Section Server.
Context `{Builtins}.
Variable env : Env.

Definition Date_now : M Z :=
  fun w => (Ok (clock env (ticks w)), world_tick w).

Definition console_log (l : LogLine) : M unit :=
  fun w => (Ok tt, world_log l w).

(** An awaited call to the backend. *)
Definition call (c : Call) : M value :=
  fun w =>
    match backend env (length (outbox w)) with
    | Some v => (Ok v, world_call c w)
    | None => (Threw BackendError, world_call c w)
    end.

(** [serverClient.channel(type, chId)]: the handle, or the client's
    error for names it refuses. *)
Definition serverClient_channel (type chId : option jsstring) : M unit :=
  if channel_allowed env type chId then ret tt else throw BackendError.

Definition update_caches (f : list value -> list value)
    (g : list (value * Z) -> list (value * Z)) : M unit :=
  fun w => (Ok tt, world_caches f g w).

Definition read_cacheTimes (id : value) : M (option Z) :=
  fun w => (Ok (Map_get id (cacheTimes w)), w).

(** [function rememberFlagged(id)] *)
Definition rememberFlagged (id : value) : M unit :=
  update_caches (Set_add id) (fun m => m) ;;
  now <- Date_now ;;
  update_caches (fun s => s) (Map_set id now).

(** [function wasFlaggedRecently(id)]; [!t] holds of [undefined] and
    of the number 0. *)
Definition wasFlaggedRecently (id : value) : M bool :=
  t <- read_cacheTimes id ;;
  match t with
  | None => ret false
  | Some t =>
      if (t =? 0)%Z then ret false
      else
        now <- Date_now ;;
        if (now - t >? FLAG_TTL_MS)%Z then
          update_caches (Set_delete id) (fun m => m) ;;
          update_caches (fun s => s) (Map_delete id) ;;
          ret false
        else ret true
  end.

(** [String(v)] and [`${v}`] *)
Definition ToString (v : value) : M jsstring :=
  match v with
  | VString s => ret s
  | _ => match ToString_other v with
         | Some s => ret s
         | None => throw TypeError
         end
  end.

(** [redact((msg?.text || '').slice(0, 120))]: a truthy text that is not
    a string has no [slice], or (an array) a [slice] whose result has no
    [replace]. *)
Definition preview_of (text : value) : M jsstring :=
  match (if truthy text then text else VString []) with
  | VString s => ret (redact (firstn 120 s))
  | _ => throw TypeError
  end.

Definition notice_text (author preview : jsstring) : jsstring :=
  [9888; 65039]%N ++ js " A message from @" ++ author ++
  js " was flagged by moderation." ++ [10]%N ++
  [8220]%N ++ preview ++ [8221]%N.

(** [async function postNotice(msg)] up to its only [await]: the notice
    to send, or [None] where the function returns early. *)
Definition postNotice_prepare (msg : value) : M (option Call) :=
  let id := get msg "id" in
  let cid := get msg "cid" in
  if negb (truthy id) || negb (truthy cid) then ret None
  else
    flagged <- wasFlaggedRecently id ;;
    if flagged then ret None
    else
      rememberFlagged id ;;
      cid_s <- ToString cid ;;
      let (type, chId) := split_cid cid_s in
      serverClient_channel type chId ;;
      let author :=
        let a := get (get msg "user") "id" in
        if truthy a then a else VString (js "someone") in
      preview <- preview_of (get msg "text") ;;
      author_s <- ToString author ;;
      ret (Some (sendMessage type chId (notice_text author_s preview)
                             (js "system") (js "system-bot"))).

(** [async function postNotice(msg)] *)
Definition postNotice (msg : value) : M unit :=
  notice <- postNotice_prepare msg ;;
  match notice with
  | None => ret tt
  | Some c => call c ;; ret tt
  end.

Definition send (code : Z) (text : string) : M Response :=
  ret {| status := code; body := js text |}.

(** [JSON.parse] of a Buffer body, the body itself otherwise. *)
Definition parse_body (b : Body) : option value :=
  match b with
  | BufferBody bytes => JSON_parse bytes
  | OtherBody v => Some v
  end.

(** The [message.new] branch: flag and notice once where the regex hits. *)
Definition fallback_flag (msg : value) (text : jsstring) : M unit :=
  if RegExp.test text then
    flagged <- wasFlaggedRecently (get msg "id") ;;
    if negb flagged then
      try_catch
        (call (flagMessage (get msg "id") (js "system-bot")) ;;
         postNotice msg)
        (fun _ => console_log log_fallback_flag_failed)
    else ret tt
  else ret tt.

(** The AI moderation queue branch. *)
Definition ai_queue (it : value) : M unit :=
  try_catch
    (got <- call (getMessage (get it "message_id")) ;;
     if truthy (get got "message") &&
        negb (is_str (get (get (get got "message") "user") "id") "system-bot")
     then postNotice (get got "message")
     else ret tt)
    (fun _ => ret tt).

(** [app.post('/webhook', async (req, res) => ...)] *)
Definition webhook (b : Body) : M Response :=
  match parse_body b with
  | None => console_log log_parse_error ;; send 200 "ignored"
  | Some payload =>
      let type := get payload "type" in
      let msg := get payload "message" in
      if is_str (get (get msg "user") "id") "system-bot" then send 200 "ignored"
      else if is_str type "message.flagged" && truthy (get msg "id") then
        try_catch (postNotice msg) (fun _ => ret tt) ;;
        send 200 "ok"
      else
        match is_str type "message.new" && truthy (get msg "id"), get msg "text" with
        | true, VString text =>
            fallback_flag msg text ;;
            send 200 "ok"
        | _, _ =>
            let it := get payload "item" in
            if truthy it &&
               (is_str (get it "recommended_action") "flag" ||
                is_str (get it "recommended_action") "remove") &&
               truthy (get it "message_id")
            then ai_queue it ;; send 200 "ok"
            else send 200 "ignored"
        end
  end.

End Server.

(** ** The start-up and the channel endpoint

    [ensureChannelTypeWithBlocklist], the start-up that calls it, and
    [app.post('/channel')].  They talk to the backend through other
    calls than the webhook and look into the errors it rejects with, so
    they run in a monad of their own, where what is thrown is a
    value. *)

(** What these functions need of the host besides [Builtins]: the
    number a numeric literal stands for ([4] and [16] below), and the
    TypeError that a failed conversion to a string throws. *)
Class SdkHost `{Numbers} : Type := {
  number_lit : Z -> number;
  type_error : value
}.

(** [process.env], as far as the server reads it here. *)
Record Config : Type := {
  env_CHANNEL_TYPE : option jsstring;
  env_BLOCKLIST_NAME : option jsstring
}.

(** [process.env.X || 'default'] *)
Definition env_or (x : option jsstring) (default : string) : jsstring :=
  match x with
  | Some (c :: s) => c :: s
  | _ => js default
  end.
Arguments env_or x default%_string.

Definition CHANNEL_TYPE (cfg : Config) : jsstring :=
  env_or (env_CHANNEL_TYPE cfg) "messaging".

Definition DESIRED_BLOCKLIST (cfg : Config) : jsstring :=
  env_or (env_BLOCKLIST_NAME cfg) "profanity_en_2020_v1".

Definition FALLBACK_BLOCKLIST : jsstring := js "profanity_en_2020_v1".

(** The calls to the chat SDK. *)
Inductive SdkCall `{Numbers} : Type :=
| updateChannelType (type blocklist blocklist_behavior : jsstring)
| getChannelType (type : jsstring)
| upsertUser (id name : jsstring)
(** [upsertUsers(ids.map((id) => ({ id, name: id })))] *)
| upsertUsers (ids : list value)
(** [serverClient.channel(type, id, { created_by_id, members })] *)
| channel (type : jsstring) (id created_by_id : value) (members : list value)
| channel_create (handle : value)
| channel_addMembers (handle : value) (members : list value).

(** How a call ends. *)
Inductive Settled `{Numbers} : Type :=
| Resolved (v : value)
| Rejected (err : value).

Inductive SdkLog `{Numbers} : Type :=
| log_init_blocklist (blocklist : jsstring)   (* [init] ... blocklist="..." behavior=flag *)
| log_init_falling_back                       (* [init] "..." invalid. Falling back to "..." *)
| log_init_update_failed (msg : value)        (* [init] failed to update channel type: *)
| log_init_effective (t : value)              (* [init] Effective channel type: *)
| log_init_no_details                         (* [init] Could not fetch channel type details: *)
| log_channel_error (err : value)             (* [POST /channel] error: *).

Record SdkWorld `{Numbers} : Type := {
  sdk_calls : list SdkCall;   (* calls made so far, oldest first *)
  sdk_logs : list SdkLog
}.

Inductive outcome `{Numbers} (A : Type) : Type :=
| Returned (a : A)
| Thrown (err : value).
Arguments Returned {_ A} a.
Arguments Thrown {_ A} err.

Definition SdkM `{Numbers} (A : Type) : Type := SdkWorld -> outcome A * SdkWorld.

(** [res.status(code).json({ ...fields })] *)
Record JsonResponse `{Numbers} : Type := {
  json_status : Z;
  json_fields : list (jsstring * value)
}.

Module Sdk.

Section Code.
Context `{Builtins} `{!SdkHost}.

Definition ret {A} (a : A) : SdkM A := fun w => (Returned a, w).

Definition throw {A} (err : value) : SdkM A := fun w => (Thrown err, w).

Definition bind {A B} (m : SdkM A) (k : A -> SdkM B) : SdkM B :=
  fun w => match m w with
           | (Returned a, w') => k a w'
           | (Thrown err, w') => (Thrown err, w')
           end.

Definition try_catch {A} (m : SdkM A) (h : value -> SdkM A) : SdkM A :=
  fun w => match m w with
           | (Returned a, w') => (Returned a, w')
           | (Thrown err, w') => h err w'
           end.

#[local] Set Warnings "-notation-overridden".
Local Notation "x <- m ;; k" := (bind m (fun x => k))
  (at level 61, m at next level, right associativity).
Local Notation "m ;; k" := (bind m (fun _ => k))
  (at level 61, right associativity).

(** How the backend settles each call, by the number of calls made
    before it. *)
Variable settles : nat -> Settled.
Variable cfg : Config.

Definition sdk (c : SdkCall) : SdkM value :=
  fun w =>
    let w' := {| sdk_calls := sdk_calls w ++ [c]; sdk_logs := sdk_logs w |} in
    match settles (length (sdk_calls w)) with
    | Resolved v => (Returned v, w')
    | Rejected err => (Thrown err, w')
    end.

Definition log (l : SdkLog) : SdkM unit :=
  fun w => (Returned tt, {| sdk_calls := sdk_calls w; sdk_logs := sdk_logs w ++ [l] |}).

(** [x || fallback] *)
Definition or_else (x fallback : value) : value :=
  if truthy x then x else fallback.

(** [err?.code === k] *)
Definition has_code (err : value) (k : Z) : bool :=
  match get err "code" with
  | VNumber n => if number_eq_dec n (number_lit k) then true else false
  | _ => false
  end.

(** A regular expression that is one literal, with the flag [i]:
    [re.test(s)] looks for the literal at every position. *)
Fixpoint test_literal (pat s : jsstring) : bool :=
  match RegExp.match_literal pat s with
  | Some _ => true
  | None =>
      match s with
      | [] => false
      | _ :: s' => test_literal pat s'
      end
  end.

(** [re.test(v)] converts [v] to a string first. *)
Definition ToString (v : value) : SdkM jsstring :=
  match v with
  | VString s => ret s
  | _ => match ToString_other v with
         | Some s => ret s
         | None => throw type_error
         end
  end.

Definition update_blocklist (blocklist : jsstring) : SdkM unit :=
  sdk (updateChannelType (CHANNEL_TYPE cfg) blocklist (js "flag")) ;;
  log (log_init_blocklist blocklist).

(** [async function ensureChannelTypeWithBlocklist()] *)
Definition ensureChannelTypeWithBlocklist : SdkM unit :=
  try_catch
    (update_blocklist (DESIRED_BLOCKLIST cfg))
    (fun err =>
       let msg := or_else (get err "message") (VString []) in
       text <- ToString msg ;;
       if test_literal (js "invalid block list name") text || has_code err 4 then
         log log_init_falling_back ;;
         update_blocklist FALLBACK_BLOCKLIST
       else log (log_init_update_failed msg)) ;;
  try_catch
    (t <- sdk (getChannelType (CHANNEL_TYPE cfg)) ;;
     log (log_init_effective t))
    (fun _ => log log_init_no_details).

(** The start-up:
    [await ensureChannelTypeWithBlocklist();
     await serverClient.upsertUser({...}).catch(() => {});] *)
Definition startup : SdkM unit :=
  ensureChannelTypeWithBlocklist ;;
  try_catch (sdk (upsertUser (js "system-bot") (js "System")) ;; ret tt)
            (fun _ => ret tt).

(** [Array.from(new Set([...members, createdById, 'system-bot']))] *)
Definition unique_members (members : list value) (createdById : value) : list value :=
  fold_left (fun s k => Set_add k s)
            (members ++ [createdById; VString (js "system-bot")]) [].

Definition respond (code : Z) (field : string) (v : value) : SdkM JsonResponse :=
  ret {| json_status := code; json_fields := [(js field, v)] |}.

(** [app.post('/channel', async (req, res) => ...)], [body] being
    [req.body]. *)
Definition is_array (v : value) : bool :=
  match v with VArray _ _ => true | _ => false end.

Definition array_items (v : value) : list value :=
  match v with VArray _ items => items | _ => [] end.

Definition post_channel (body : value) : SdkM JsonResponse :=
  let b := or_else body (VObject 0 []) in
  let channelId := get b "channelId" in
  let members := match get b "members" with
                 | VUndefined => VArray 0 []
                 | m => m
                 end in
  if negb (truthy channelId) || negb (is_array members) ||
     (length (array_items members) =? 0)
  then respond 400 "error" (VString (js "channelId and members[] required"))
  else
    let items := array_items members in
    let createdById := or_else (nth 0 items VUndefined) (VString (js "system-bot")) in
    try_catch
      (let unique := unique_members items createdById in
       sdk (upsertUsers unique) ;;
       handle <- sdk (channel (CHANNEL_TYPE cfg) channelId createdById unique) ;;
       try_catch (sdk (channel_create handle) ;; ret tt)
                 (fun e => if has_code e 16 then ret tt else throw e) ;;
       (if negb (length items =? 0) then
          try_catch (sdk (channel_addMembers handle items) ;; ret tt)
                    (fun _ => ret tt)
        else ret tt) ;;
       respond 200 "cid" (get handle "cid"))
      (fun err =>
         log (log_channel_error err) ;;
         respond 500 "error"
           (or_else (get err "message")
                    (VString (js "failed to create/ensure channel")))).

End Code.

End Sdk.

(** ** The pattern, word by word

    What the scan of the pattern comes to when the input is cut into its
    words, written with the pattern's own [TOKENS], [canonicalize] and
    [is_word_char]: the proofs follow the scan through these. *)

Module PatternWords.
Import RegExp.

(** A word is a maximal run of word characters; the pattern matches it
    when it canonicalizes to one of the tokens. *)
Definition ci_eqb (t w : jsstring) : bool :=
  str_eqb (map canonicalize t) (map canonicalize w).

Definition is_profane (w : jsstring) : bool :=
  existsb (fun t => ci_eqb t w) TOKENS.

(** The input cut into its words and, one by one, the code units between
    them. *)
Fixpoint word_runs (s : jsstring) : list jsstring :=
  match s with
  | [] => []
  | c :: s' =>
      if is_word_char c then
        match word_runs s' with
        | r :: rs => if is_word (head_opt r) then (c :: r) :: rs else [c] :: r :: rs
        | [] => [[c]]
        end
      else [c] :: word_runs s'
  end.

(** A matching word keeps its first code unit, followed by three
    asterisks; anything else is kept. *)
Definition mask (w : jsstring) : jsstring :=
  if is_profane w then firstn 1 w ++ js "***" else w.

Definition redact_by_words (s : jsstring) : jsstring :=
  concat (map mask (word_runs s)).

(** The letters of the pattern: lower-case ASCII. *)
Definition is_lower (c : N) : bool := ((97 <=? c) && (c <=? 122))%N.

End PatternWords.

(** * The vocabulary of the specification

    What the statements below are written with: the spec's reading of
    the redactor, the worlds that the flag memory's operations lead to,
    the notice of a well-typed message, and a sample host to run the
    handler on. *)

(** The redactor as the spec words it, with nothing taken from the
    pattern of the code: the fixed profanity set, letters compared
    without regard to their case, and words as maximal runs of letters,
    digits and underscores. *)
Module RedactSpec.

Definition profanity_set : list jsstring :=
  map js ["fuck"; "shit"; "bitch"; "asshole"; "dick"; "bastard"; "cunt"]%string.

Definition is_upper (c : N) : bool := ((65 <=? c) && (c <=? 90))%N.   (* A-Z *)
Definition is_lower (c : N) : bool := ((97 <=? c) && (c <=? 122))%N.  (* a-z *)
Definition is_digit (c : N) : bool := ((48 <=? c) && (c <=? 57))%N.   (* 0-9 *)

(** A code unit that belongs to a word. *)
Definition word_unit (c : N) : bool :=
  is_upper c || is_lower c || is_digit c || (c =? 95)%N.

(** The neighbour of a position, where there is one, belongs to a
    word. *)
Definition is_word_unit (o : option N) : bool :=
  match o with Some c => word_unit c | None => false end.

(** The lower-case form of a letter; any other code unit is its own. *)
Definition to_lower (c : N) : N := if is_upper c then (c + 32)%N else c.

(** Equal without regard to the case of the letters. *)
Definition ci_eqb (t w : jsstring) : bool :=
  str_eqb (map to_lower t) (map to_lower w).

(** A case-insensitive occurrence of a token of the set. *)
Definition is_profane (w : jsstring) : bool :=
  existsb (fun t => ci_eqb t w) profanity_set.

(** The input cut into its words and, one by one, the code units between
    them. *)
Fixpoint word_runs (s : jsstring) : list jsstring :=
  match s with
  | [] => []
  | c :: s' =>
      if word_unit c then
        match word_runs s' with
        | r :: rs => if is_word_unit (head_opt r) then (c :: r) :: rs else [c] :: r :: rs
        | [] => [[c]]
        end
      else [c] :: word_runs s'
  end.

(** A profane word keeps its first code unit, followed by three
    asterisks; anything else is kept. *)
Definition mask (w : jsstring) : jsstring :=
  if is_profane w then firstn 1 w ++ js "***" else w.

Definition redact_spec (s : jsstring) : jsstring :=
  concat (map mask (word_runs s)).

End RedactSpec.

(** [cid.split(':')] as the prefix before the first colon and what
    follows it. *)
Fixpoint before (sep : N) (s : jsstring) : jsstring :=
  match s with
  | [] => []
  | c :: s' => if (c =? sep)%N then [] else c :: before sep s'
  end.

Fixpoint after (sep : N) (s : jsstring) : option jsstring :=
  match s with
  | [] => None
  | c :: s' => if (c =? sep)%N then Some s' else after sep s'
  end.

Section Vocabulary.
Context `{Builtins}.
Variable env : Env.

(** The world after [rememberFlagged id]. *)
Definition remembered (id : value) (w : World) : World :=
  world_caches (fun s => s) (Map_set id (clock env (ticks w)))
    (world_tick (world_caches (Set_add id) (fun m => m) w)).

(** The world after the eviction of [id]. *)
Definition evicted (id : value) (w : World) : World :=
  world_caches (fun s => s) (Map_delete id)
    (world_caches (Set_delete id) (fun m => m) (world_tick w)).

(** A field as the data model types it: a string, or absent. *)
Definition string_or_absent (v : value) : bool :=
  match v with
  | VString _ => true
  | _ => negb (truthy v)
  end.

Definition string_of (v : value) : jsstring :=
  match v with VString s => s | _ => [] end.

(** The notice for a message whose fields are typed as the data model
    says. *)
Definition notice_for (msg : value) : Call :=
  let (type, chId) := split_cid (string_of (get msg "cid")) in
  let a := get (get msg "user") "id" in
  sendMessage type chId
    (notice_text (if truthy a then string_of a else js "someone")
                 (redact (firstn 120 (string_of (get msg "text")))))
    (js "system") (js "system-bot").

(** The client hands out a channel for the names that [cid] splits
    into. *)
Definition channel_handed_out (cid : jsstring) : bool :=
  let (type, chId) := split_cid cid in channel_allowed env type chId.

(** Code that returns from every world: it neither throws nor fails to
    answer. *)
Definition returns {A} (m : M A) : Prop :=
  forall w, exists a w', m w = (Ok a, w').

End Vocabulary.

(** ** A sample host

    Integers for the number values, no conversion of non-strings to
    strings and a parser that rejects every document: the examples below
    hand the handler a body that is already a value. *)

Definition Z_numbers : Numbers :=
  {| number := Z; number_eq_dec := Z.eq_dec; number_falsy := fun z => Z.eqb z 0 |}.

Definition bare_builtins : @Builtins Z_numbers :=
  {| ToString_other := fun _ => None; JSON_parse := fun _ => None |}.

#[local] Existing Instance Z_numbers.
#[local] Existing Instance bare_builtins.

Definition empty_world : World :=
  {| flaggedCache := []; cacheTimes := []; ticks := 0; outbox := []; console := [] |}.

(** A client that hands out a channel for a type made of letters,
    digits, [_] and [-] and an id made of these and [!], or no id at
    all, and throws on any other pair of names. *)
Definition plain_name (extra : N -> bool) (s : jsstring) : bool :=
  negb (length s =? 0) &&
  forallb (fun c => RegExp.is_word_char c || (c =? 45)%N || extra c) s.

Definition plain_names (type chId : option jsstring) : bool :=
  match type, chId with
  | Some t, None => plain_name (fun _ => false) t
  | Some t, Some i =>
      plain_name (fun _ => false) t &&
      ((length i =? 0) || plain_name (fun c => (c =? 33)%N) i)
  | None, _ => false
  end.

(** A clock that always reads [now], a backend that gives every call
    the same answer, and that client. *)
Definition env_at (now : Z) (answer : option value) : Env :=
  {| clock := fun _ => now; backend := fun _ => answer;
     channel_allowed := plain_names |}.

Definition str (s : string) : value := VString (js s).
Arguments str s%_string.

Definition obj (props : list (string * value)) : value :=
  VObject 0 (map (fun kv => (js (fst kv), snd kv)) props).

Definition message (id cid author text : string) : value :=
  obj [("id", str id); ("cid", str cid);
       ("user", obj [("id", str author)]); ("text", str text)]%string.

Definition event (type : string) (msg : value) : value :=
  obj [("type", str type); ("message", msg)]%string.

(** A backend that rejects the first call made to it and accepts the
    rest. *)
Definition env_first_call_fails : Env :=
  {| clock := fun _ => 1000%Z;
     backend := fun n => match n with 0 => None | S _ => Some VUndefined end;
     channel_allowed := plain_names |}.

Definition profane_m2 : value := message "m2" "messaging:general" "bob" "you fuck".

Definition flagged_m1 : value := message "m1" "messaging:general" "alice" "you fuck".

(** ** More vocabulary *)

(** [parts.join(':')]: the pieces with the separator between them. *)
Fixpoint join (sep : N) (parts : list jsstring) : jsstring :=
  match parts with
  | [] => []
  | [p] => p
  | p :: rest => p ++ sep :: join sep rest
  end.

Section MoreVocabulary.
Context `{Numbers}.
Variable env : Env.

Definition is_send (c : Call) : bool :=
  match c with
  | sendMessage _ _ _ _ _ => true
  | _ => false
  end.

(** The [Set] and the [Map] of the flag memory hold the same ids. *)
Definition caches_in_sync (w : World) : Prop :=
  forall k, existsb (same_value_zero k) (flaggedCache w) =
            match Map_get k (cacheTimes w) with
            | Some _ => true
            | None => false
            end.

(** [steps P calls w w']: the world [w'] comes from [w] by readings of
    the clock, log lines, marks and evictions of ids in [P], and the
    calls [calls] to the backend, in that order. *)
Inductive steps (P : value -> Prop) : list Call -> World -> World -> Prop :=
| steps_done w : steps P [] w w
| steps_tick l w w' : steps P l w w' -> steps P l w (world_tick w')
| steps_log line l w w' : steps P l w w' -> steps P l w (world_log line w')
| steps_remember id l w w' :
    P id -> steps P l w w' -> steps P l w (remembered env id w')
| steps_evict id l w w' :
    P id -> steps P l w w' -> steps P l w (evicted id w')
| steps_call c l w w' : steps P l w w' -> steps P (l ++ [c]) w (world_call c w').

(** The lists of calls one event can cause. *)
Definition one_notice_at_most (l : list Call) : Prop :=
  length l <= 2 /\ length (filter is_send l) <= 1.

End MoreVocabulary.

(** ** Vocabulary for the start-up and the channel endpoint *)

Section SdkVocabulary.
Context `{Builtins} `{!SdkHost}.

Definition sdk_called (c : SdkCall) (w : SdkWorld) : SdkWorld :=
  {| sdk_calls := sdk_calls w ++ [c]; sdk_logs := sdk_logs w |}.

Definition sdk_logged (l : SdkLog) (w : SdkWorld) : SdkWorld :=
  {| sdk_calls := sdk_calls w; sdk_logs := sdk_logs w ++ [l] |}.

Definition nonempty_array (v : value) : bool :=
  match v with
  | VArray _ (_ :: _) => true
  | _ => false
  end.

(** A request body with a channel id and at least one member. *)
Definition valid_channel_request (body : value) : bool :=
  truthy (get body "channelId") && nonempty_array (get body "members").

(** The error is the one the start-up answers with the fallback
    blocklist: its message names an invalid block list, or its code is
    4. *)
Definition invalid_blocklist_error (err : value) : bool :=
  Sdk.test_literal (js "invalid block list name") (string_of (get err "message")) ||
  Sdk.has_code err 4.

(** No two values of the list are the same [Set] element. *)
Definition distinct (l : list value) : Prop :=
  ForallOrdPairs (fun a b => same_value_zero a b = false) l.

Variable settles : nat -> Settled.
Variable cfg : Config.

(** Whether the channel is there after the three calls that must
    succeed: the upsert, the handle, and the creation, which may also
    fail with code 16. *)
Definition channel_ensured (n : nat) : bool :=
  match settles n, settles (n + 1), settles (n + 2) with
  | Resolved _, Resolved _, Resolved _ => true
  | Resolved _, Resolved _, Rejected e => Sdk.has_code e 16
  | _, _, _ => false
  end.

(** The two updates of the channel type that the start-up may make. *)
Definition update_desired : SdkCall :=
  updateChannelType (CHANNEL_TYPE cfg) (DESIRED_BLOCKLIST cfg) (js "flag").

Definition update_fallback : SdkCall :=
  updateChannelType (CHANNEL_TYPE cfg) FALLBACK_BLOCKLIST (js "flag").

End SdkVocabulary.

(** ** A sample backend for the start-up and the channel endpoint *)

Definition Z_sdk_host : @SdkHost Z_numbers :=
  {| number_lit := fun z => z; type_error := str "TypeError" |}.

#[local] Existing Instance Z_sdk_host.

Definition sdk_start : SdkWorld := {| sdk_calls := []; sdk_logs := [] |}.

Definition default_config : Config :=
  {| env_CHANNEL_TYPE := None; env_BLOCKLIST_NAME := Some (js "team_words") |}.

(** The error of an unknown blocklist, and a backend that rejects
    every call with it. *)
Definition invalid_name_error : value :=
  obj [("message", str "UpdateChannelType failed: Invalid block list name")]%string.

Definition always_invalid_name (n : nat) : Settled := Rejected invalid_name_error.

(** A backend on which the channel exists already: the creation, the
    third call, fails with code 16; the other calls succeed. *)
Definition channel_exists (n : nat) : Settled :=
  match n with
  | 2 => Rejected (obj [("code", VNumber 16%Z)]%string)
  | _ => Resolved (obj [("cid", str "messaging:demo-general")]%string)
  end.

Definition demo_channel_request : value :=
  obj [("channelId", str "demo-general");
       ("members", VArray 1 [str "alice"; str "bob"; str "alice"])]%string.

(** A flagged message whose conversation id names a channel with a
    space in its id. *)
Definition spaced_channel_m5 : value :=
  message "m5" "messaging:bad id" "alice" "you fuck".

(** A flagged message whose text is the number 5. *)
Definition numeric_text_m1 : value :=
  obj [("id", str "m1"); ("cid", str "messaging:general");
       ("text", VNumber 5%Z)]%string.

(** An event of the AI moderation queue: no message, an item to remove. *)
Definition ai_event_m4 : value :=
  obj [("item", obj [("message_id", str "m4");
                     ("recommended_action", str "remove")])]%string.

(** * Properties *)

(** ** Strings *)

Lemma str_eqb_eq a b : str_eqb a b = true <-> a = b.
Proof.
  revert b. induction a as [|x a IH]; intros [|y b]; simpl; split;
    try congruence; try discriminate.
  - intros E. apply andb_true_iff in E as [E1 E2].
    apply N.eqb_eq in E1. apply IH in E2. congruence.
  - intros E. inversion E; subst. rewrite N.eqb_refl. simpl. now apply IH.
Qed.

Lemma str_eqb_refl a : str_eqb a a = true.
Proof. now apply str_eqb_eq. Qed.

(** Two ways of cutting one string: the cuts agree, or one prefix
    extends the other. *)
Lemma app_eq_app_cases (m r w q : jsstring) :
  m ++ r = w ++ q ->
  (m = w /\ r = q) \/
  (exists x t, w = m ++ x :: t /\ r = x :: t ++ q) \/
  (exists y t, m = w ++ y :: t /\ q = y :: t ++ r).
Proof.
  revert w. induction m as [|a m IH]; intros [|b w] E; simpl in *.
  - left. split; [reflexivity|assumption].
  - right; left. exists b, w. split; [reflexivity|assumption].
  - right; right. exists a, m. split; [reflexivity|now symmetry].
  - inversion E; subst. destruct (IH _ H1) as [[-> ->]|[(x & t & -> & ->)|(y & t & -> & ->)]].
    + left. split; reflexivity.
    + right; left. exists x, t. split; reflexivity.
    + right; right. exists y, t. split; reflexivity.
Qed.

(** ** The redactor *)

Module Redact.
Import RegExp PatternWords.

Ltac n_bools :=
  unfold is_lower, is_word_char, canonicalize in *;
  repeat match goal with
         | |- context [(?a <=? ?b)%N] => destruct (N.leb_spec a b)
         | |- context [(?a =? ?b)%N] => destruct (N.eqb_spec a b)
         | H : context [(?a <=? ?b)%N] |- _ => destruct (N.leb_spec a b)
         | H : context [(?a =? ?b)%N] |- _ => destruct (N.eqb_spec a b)
         end;
  simpl in *; try congruence; try lia.

(** Only a letter is equal to a pattern letter up to case. *)
Lemma canonicalize_word p c :
  is_lower p = true -> canonicalize p = canonicalize c -> is_word_char c = true.
Proof. intros Hp E. n_bools. Qed.

Lemma TOKENS_lower : Forall (fun t => forallb is_lower t = true) TOKENS.
Proof. repeat constructor. Qed.

Lemma match_literal_sound t s m r :
  match_literal t s = Some (m, r) ->
  s = m ++ r /\ map canonicalize t = map canonicalize m.
Proof.
  revert s m r. induction t as [|p t IH]; intros s m r E; simpl in E.
  - inversion E; subst. split; reflexivity.
  - destruct s as [|c s']; [discriminate|].
    destruct (N.eqb_spec (canonicalize p) (canonicalize c)) as [Ec|]; [|discriminate].
    destruct (match_literal t s') as [[m' r']|] eqn:E'; [|discriminate].
    inversion E; subst. destruct (IH _ _ _ E') as [-> Hm].
    split; simpl; congruence.
Qed.

Lemma match_literal_complete t m r :
  map canonicalize t = map canonicalize m -> match_literal t (m ++ r) = Some (m, r).
Proof.
  revert m. induction t as [|p t IH]; intros [|c m] E; simpl in *; try discriminate.
  - reflexivity.
  - inversion E as [[Ec Em]]. rewrite Ec, N.eqb_refl, (IH _ Em). reflexivity.
Qed.

(** What a token matches consists of word characters. *)
Lemma matched_word t m :
  forallb is_lower t = true -> map canonicalize t = map canonicalize m ->
  forallb is_word_char m = true.
Proof.
  revert m. induction t as [|p t IH]; intros [|c m] Ht E; simpl in *; try discriminate.
  - reflexivity.
  - apply andb_true_iff in Ht as [Hp Ht]. inversion E as [[Ec Em]].
    rewrite (canonicalize_word _ _ Hp Ec), (IH _ Ht Em). reflexivity.
Qed.

Lemma last_opt_word m :
  m <> [] -> forallb is_word_char m = true -> is_word (last_opt m) = true.
Proof.
  induction m as [|c m IH]; [congruence|]. intros _ Hm. simpl in Hm.
  apply andb_true_iff in Hm as [Hc Hm]. destruct m as [|d m]; [exact Hc|].
  change (is_word (last_opt (d :: m)) = true). apply IH; [discriminate|exact Hm].
Qed.

Lemma ci_eqb_length t w : ci_eqb t w = true -> length w = length t.
Proof.
  unfold ci_eqb. intros E. apply str_eqb_eq in E.
  apply (f_equal (@length N)) in E. rewrite !length_map in E. congruence.
Qed.

(** The alternatives at the start of a word [w] that ends where [r]
    begins: a match is the whole word, and there is one exactly when the
    word is one of the tokens up to case. *)
Lemma match_alternatives_word toks w r :
  Forall (fun t => forallb is_lower t = true) toks ->
  Forall (fun t : jsstring => t <> []) toks ->
  forallb is_word_char w = true -> is_word (head_opt r) = false ->
  match_alternatives toks (w ++ r) =
  if existsb (fun t => ci_eqb t w) toks then Some (w, r) else None.
Proof.
  intros Hlow Hne Hw Hr. induction toks as [|t toks IH]; [reflexivity|].
  inversion Hlow as [|? ? Ht Hlow']; inversion Hne as [|? ? Hn Hne']; subst.
  specialize (IH Hlow' Hne'). simpl.
  destruct (ci_eqb t w) eqn:Eci; simpl.
  - apply str_eqb_eq in Eci. rewrite (match_literal_complete _ _ r Eci).
    unfold word_boundary. rewrite last_opt_word, Hr; [reflexivity| |exact Hw].
    intros ->. destruct t; [congruence|discriminate].
  - destruct (match_literal t (w ++ r)) as [[m r']|] eqn:E; [|exact IH].
    apply match_literal_sound in E as [E Hm].
    assert (Hmw : forallb is_word_char m = true) by (eapply matched_word; eauto).
    assert (Hmne : m <> []).
    { intros ->. destruct t; [congruence|discriminate]. }
    symmetry in E.
    destruct (app_eq_app_cases _ _ _ _ E) as [[-> ->]|[(x & u & -> & ->)|(y & u & -> & ->)]].
    + unfold ci_eqb in Eci. rewrite Hm, str_eqb_refl in Eci. discriminate.
    + unfold word_boundary. rewrite last_opt_word by assumption. simpl.
      rewrite forallb_app in Hw. apply andb_true_iff in Hw as [_ Hw].
      simpl in Hw. apply andb_true_iff in Hw as [-> _]. exact IH.
    + rewrite forallb_app in Hmw. apply andb_true_iff in Hmw as [_ Hmw].
      simpl in Hmw, Hr. apply andb_true_iff in Hmw as [Hy _]. congruence.
Qed.

(** A match starts with a word character. *)
Lemma match_alternatives_head toks s m r :
  Forall (fun t => forallb is_lower t = true) toks ->
  match_alternatives toks s = Some (m, r) -> forallb is_word_char m = true.
Proof.
  induction 1 as [|t ts Ht _ IH]; simpl; [discriminate|].
  destruct (match_literal t s) as [[m' r']|] eqn:E; [|exact IH].
  destruct (word_boundary (last_opt m') (head_opt r')); [|exact IH].
  intros H; inversion H; subst. apply match_literal_sound in E as [_ E].
  eapply matched_word; eauto.
Qed.

Lemma match_at_nonword prev c s :
  is_word_char c = false -> match_at prev (c :: s) = None.
Proof.
  intros Hc. destruct (match_at prev (c :: s)) as [[m r]|] eqn:E; [|reflexivity].
  destruct (match_at_app _ _ _ _ E) as [Es Hm]. unfold match_at in E.
  destruct (word_boundary prev (head_opt (c :: s))); [|discriminate].
  apply (match_alternatives_head _ _ _ _ TOKENS_lower) in E.
  destruct m as [|d m]; [congruence|]. inversion Es; subst.
  simpl in E. rewrite Hc in E. discriminate.
Qed.

Lemma replace_loop_match prev c s m r :
  match_at prev (c :: s) = Some (m, r) ->
  replace_loop prev (c :: s) =
  (firstn 1 m ++ js "***") ++ replace_loop (last_opt m) r.
Proof.
  intros E. rewrite replace_loop_equation_2.
  destruct (inspect (match_at prev (c :: s))) as [[[m' r']|] E']; simpl.
  - rewrite E in E'. inversion E'; subst. reflexivity.
  - congruence.
Qed.

Lemma replace_loop_nomatch prev c s :
  match_at prev (c :: s) = None ->
  replace_loop prev (c :: s) = c :: replace_loop (Some c) s.
Proof.
  intros E. rewrite replace_loop_equation_2.
  destruct (inspect (match_at prev (c :: s))) as [[[m' r']|] E']; simpl.
  - congruence.
  - reflexivity.
Qed.

(** The scan reads the code unit before a position only as word or
    non-word. *)
Lemma replace_loop_prev p q s :
  is_word p = is_word q -> replace_loop p s = replace_loop q s.
Proof.
  intros E. destruct s as [|c s]; [now rewrite !replace_loop_equation_1|].
  assert (Em : match_at p (c :: s) = match_at q (c :: s)).
  { unfold match_at, word_boundary. now rewrite E. }
  destruct (match_at q (c :: s)) as [[m r]|] eqn:Eq.
  - rewrite (replace_loop_match _ _ _ _ _ Em), (replace_loop_match _ _ _ _ _ Eq). reflexivity.
  - rewrite (replace_loop_nomatch _ _ _ Em), (replace_loop_nomatch _ _ _ Eq). reflexivity.
Qed.

Lemma replace_loop_nonword prev c s :
  is_word_char c = false ->
  replace_loop prev (c :: s) = c :: replace_loop None s.
Proof.
  intros Hc. rewrite replace_loop_nomatch by now apply match_at_nonword.
  f_equal. apply replace_loop_prev. exact Hc.
Qed.

(** Where the input does not begin with a word character, nothing
    before it matters. *)
Lemma replace_loop_fresh prev r :
  is_word (head_opt r) = false -> replace_loop prev r = replace_loop None r.
Proof.
  destruct r as [|c r]; intros Hr.
  - now rewrite !replace_loop_equation_1.
  - simpl in Hr. now rewrite !replace_loop_nonword.
Qed.

(** Inside a word no match starts: the rest of the word is kept. *)
Lemma replace_loop_inside prev w r :
  is_word prev = true -> forallb is_word_char w = true ->
  is_word (head_opt r) = false ->
  replace_loop prev (w ++ r) = w ++ replace_loop None r.
Proof.
  revert prev. induction w as [|c w IH]; intros prev Hp Hw Hr; simpl.
  - now apply replace_loop_fresh.
  - simpl in Hw. apply andb_true_iff in Hw as [Hc Hw].
    rewrite replace_loop_nomatch.
    + f_equal. apply IH; assumption.
    + unfold match_at, word_boundary. simpl. now rewrite Hp, Hc.
Qed.

(** At the start of a word the scan masks the word when it is profane
    and keeps it otherwise. *)
Lemma replace_loop_word prev w r :
  is_word prev = false -> w <> [] -> forallb is_word_char w = true ->
  is_word (head_opt r) = false ->
  replace_loop prev (w ++ r) = mask w ++ replace_loop None r.
Proof.
  intros Hp Hne Hw Hr. destruct w as [|c w]; [congruence|].
  pose proof Hw as Hw'. simpl in Hw'. apply andb_true_iff in Hw' as [Hc Hw'].
  assert (E : match_at prev ((c :: w) ++ r) =
              if is_profane (c :: w) then Some (c :: w, r) else None).
  { unfold match_at, word_boundary. simpl head_opt. simpl is_word at 2.
    rewrite Hp, Hc. simpl xorb. cbv iota.
    apply match_alternatives_word;
      auto using TOKENS_lower, TOKENS_nonempty. }
  unfold mask. destruct (is_profane (c :: w)).
  - change ((c :: w) ++ r) with (c :: (w ++ r)) in *.
    rewrite (replace_loop_match _ _ _ _ _ E). f_equal.
    apply replace_loop_fresh. exact Hr.
  - change ((c :: w) ++ r) with (c :: (w ++ r)) in *.
    rewrite (replace_loop_nomatch _ _ _ E). simpl. f_equal.
    apply replace_loop_inside; auto.
Qed.

(** Every input is empty, begins with a non-word code unit, or begins
    with a word that ends where the rest begins. *)
Lemma word_span (s : jsstring) :
  s = [] \/
  (exists c s', s = c :: s' /\ is_word_char c = false) \/
  (exists w r, s = w ++ r /\ w <> [] /\ forallb is_word_char w = true /\
               is_word (head_opt r) = false /\ length r < length s).
Proof.
  induction s as [|c s IH]; [now left|]. right.
  destruct (is_word_char c) eqn:Hc; [right|left; now exists c, s].
  destruct IH as [->|[(d & s' & -> & Hd)|(w & r & -> & Hne & Hw & Hr & Hl)]].
  - exists [c], []. simpl. rewrite Hc. repeat split; auto; try discriminate; lia.
  - exists [c], (d :: s'). simpl. rewrite Hc, Hd.
    repeat split; auto; try discriminate; lia.
  - exists (c :: w), r. simpl. rewrite Hc, Hw.
    repeat split; auto; try discriminate; lia.
Qed.

Lemma word_runs_nonword c s :
  is_word_char c = false -> word_runs (c :: s) = [c] :: word_runs s.
Proof. intros Hc. simpl. now rewrite Hc. Qed.

Lemma word_runs_word w r :
  w <> [] -> forallb is_word_char w = true -> is_word (head_opt r) = false ->
  word_runs (w ++ r) = w :: word_runs r.
Proof.
  induction w as [|c w IH]; [congruence|]. intros _ Hw Hr.
  simpl in Hw. apply andb_true_iff in Hw as [Hc Hw]. simpl. rewrite Hc.
  destruct w as [|d w].
  - simpl. destruct r as [|e r]; [reflexivity|]. simpl in Hr.
    rewrite (word_runs_nonword _ _ Hr). simpl. now rewrite Hr.
  - rewrite IH by (auto; discriminate). simpl in Hw |- *.
    apply andb_true_iff in Hw as [-> _]. reflexivity.
Qed.

Lemma concat_word_runs s : concat (word_runs s) = s.
Proof.
  induction s as [|c s IH]; [reflexivity|]. simpl.
  destruct (is_word_char c); [|simpl; now rewrite IH].
  destruct (word_runs s) as [|r rs]; [simpl in *; now subst|].
  destruct (is_word (head_opt r)); simpl in *; now rewrite <- IH.
Qed.

Lemma word_runs_nil s : word_runs s = [] -> s = [].
Proof. intros E. rewrite <- (concat_word_runs s), E. reflexivity. Qed.

Lemma last_opt_app (a b : jsstring) : b <> [] -> last_opt (a ++ b) = last_opt b.
Proof.
  intros Hb. induction a as [|x a IH]; [reflexivity|]. simpl app.
  destruct (a ++ b) eqn:E; [|exact IH].
  apply app_eq_nil in E as [_ ->]. congruence.
Qed.

Lemma last_opt_cons c (s : jsstring) : s <> [] -> last_opt (c :: s) = last_opt s.
Proof. destruct s; [congruence|reflexivity]. Qed.

(** Cutting the input after a non-word code unit cuts no word. *)
Lemma word_runs_app pre x :
  is_word (last_opt pre) = false ->
  word_runs (pre ++ x) = word_runs pre ++ word_runs x.
Proof.
  induction pre as [|c pre IH]; [reflexivity|]. intros Hl.
  assert (Hpre : pre <> [] -> word_runs (pre ++ x) = word_runs pre ++ word_runs x).
  { intros Hne. apply IH. now rewrite last_opt_cons in Hl. }
  simpl. destruct (is_word_char c) eqn:Hc.
  - destruct pre as [|d pre]; [simpl in Hl; congruence|].
    rewrite Hpre by discriminate.
    destruct (word_runs (d :: pre)) as [|r rs] eqn:E.
    + apply word_runs_nil in E. discriminate.
    + simpl. destruct (is_word (head_opt r)); reflexivity.
  - destruct pre as [|d pre]; [reflexivity|]. now rewrite Hpre by discriminate.
Qed.

(** The words among the runs are whole words of the input. *)
Lemma word_runs_whole s : forall l1 w l2,
  word_runs s = l1 ++ w :: l2 -> is_word (head_opt w) = true ->
  is_word (last_opt (concat l1)) = false /\ is_word (head_opt (concat l2)) = false.
Proof.
  induction s as [s IH] using (induction_ltof1 _ (@length N)). unfold ltof in IH.
  intros l1 w l2 E Hw.
  destruct (word_span s) as [->|[(c & s' & -> & Hc)|(w0 & r & -> & Hne & Hw0 & Hr & Hl)]].
  - destruct l1; discriminate.
  - rewrite (word_runs_nonword _ _ Hc) in E. destruct l1 as [|x l1]; simpl in E.
    + inversion E; subst. simpl in Hw. congruence.
    + inversion E; subst. destruct (IH s' (Nat.lt_succ_diag_r _) _ _ _ H1 Hw) as [H1' H2'].
      split; [|exact H2']. simpl.
      destruct (concat l1) eqn:Ec; [exact Hc|exact H1'].
  - rewrite (word_runs_word _ _ Hne Hw0 Hr) in E. destruct l1 as [|x l1]; simpl in E.
    + inversion E; subst. rewrite concat_word_runs. now split.
    + inversion E; subst. destruct (IH r Hl _ _ _ H1 Hw) as [H1' H2'].
      split; [|exact H2']. simpl.
      destruct (concat l1) eqn:Ec.
      * exfalso. destruct r as [|d r]; [destruct l1; discriminate|].
        simpl in Hr. rewrite (word_runs_nonword _ _ Hr) in H1.
        destruct l1 as [|y l1]; simpl in *.
        -- inversion H1; subst. simpl in Hw. congruence.
        -- inversion H1; subst. discriminate.
      * rewrite last_opt_app by discriminate. exact H1'.
Qed.

(** A profane word is a non-empty run of word characters at least as
    long as its mask. *)
Lemma is_profane_word w :
  is_profane w = true ->
  w <> [] /\ forallb is_word_char w = true /\ 4 <= length w.
Proof.
  unfold is_profane. intros E. apply existsb_exists in E as (t & Ht & E).
  assert (Hl : 4 <= length t /\ forallb is_lower t = true).
  { clear E. revert t Ht. apply Forall_forall.
    repeat constructor; simpl; lia. }
  destruct Hl as [Hl Hlow]. pose proof (ci_eqb_length _ _ E) as El.
  repeat split.
  - intros ->. simpl in El. lia.
  - apply str_eqb_eq in E. eapply matched_word; eauto.
  - lia.
Qed.

Lemma mask_profane w :
  is_profane w = true ->
  mask w = firstn 1 w ++ js "***" /\ length (mask w) = 4.
Proof.
  intros E. unfold mask. rewrite E. split; [reflexivity|].
  destruct (is_profane_word _ E) as (Hne & _ & _).
  destruct w; [congruence|reflexivity].
Qed.

(** [redact] masks word by word. *)
Lemma redact_word_by_word s : redact s = redact_by_words s.
Proof.
  unfold redact, redact_by_words.
  induction s as [s IH] using (induction_ltof1 _ (@length N)). unfold ltof in IH.
  destruct (word_span s) as [->|[(c & s' & -> & Hc)|(w & r & -> & Hne & Hw & Hr & Hl)]].
  - now rewrite replace_loop_equation_1.
  - rewrite (replace_loop_nonword _ _ _ Hc), (word_runs_nonword _ _ Hc). simpl.
    unfold mask at 1.
    replace (is_profane [c]) with false; [simpl; f_equal; apply IH; simpl; lia|].
    destruct (is_profane [c]) eqn:E; [|reflexivity].
    destruct (is_profane_word _ E) as (_ & _ & Hlen). simpl in Hlen. lia.
  - rewrite replace_loop_word, word_runs_word by auto. simpl. f_equal. now apply IH.
Qed.

(** *** The spec's words and the pattern's *)

(** The pattern's [\w] is the spec's word character. *)
Lemma word_unit_is_word_char c : RedactSpec.word_unit c = is_word_char c.
Proof.
  unfold RedactSpec.word_unit, RedactSpec.is_upper, RedactSpec.is_lower,
    RedactSpec.is_digit, is_word_char.
  destruct ((48 <=? c) && (c <=? 57))%N, ((65 <=? c) && (c <=? 90))%N,
    ((97 <=? c) && (c <=? 122))%N, (c =? 95)%N; reflexivity.
Qed.

Lemma is_word_unit_is_word o : RedactSpec.is_word_unit o = is_word o.
Proof. destruct o; [apply word_unit_is_word_char|reflexivity]. Qed.

(** Two code units have one canonical form exactly when they have one
    lower-case form. *)
Lemma to_lower_canonicalize a b :
  (RedactSpec.to_lower a =? RedactSpec.to_lower b)%N =
  (canonicalize a =? canonicalize b)%N.
Proof.
  unfold RedactSpec.to_lower, RedactSpec.is_upper, canonicalize.
  destruct (N.leb_spec 65 a), (N.leb_spec a 90), (N.leb_spec 97 a), (N.leb_spec a 122),
    (N.leb_spec 65 b), (N.leb_spec b 90), (N.leb_spec 97 b), (N.leb_spec b 122);
    cbn [andb]; try lia;
    match goal with
    | |- (?x =? ?y)%N = (?u =? ?v)%N =>
        destruct (N.eqb_spec x y), (N.eqb_spec u v); try reflexivity; lia
    end.
Qed.

Lemma spec_ci_eqb t w : RedactSpec.ci_eqb t w = ci_eqb t w.
Proof.
  unfold RedactSpec.ci_eqb, ci_eqb. revert w.
  induction t as [|a t IH]; intros [|b w]; simpl; try reflexivity.
  now rewrite to_lower_canonicalize, IH.
Qed.

(** The tokens of the pattern are the profanity set of the spec. *)
Lemma TOKENS_profanity_set : TOKENS = RedactSpec.profanity_set.
Proof. reflexivity. Qed.

Lemma spec_is_profane w : RedactSpec.is_profane w = is_profane w.
Proof.
  unfold RedactSpec.is_profane, is_profane. rewrite TOKENS_profanity_set.
  induction RedactSpec.profanity_set as [|t l IH]; [reflexivity|].
  simpl. now rewrite spec_ci_eqb, IH.
Qed.

Lemma spec_word_runs s : RedactSpec.word_runs s = word_runs s.
Proof.
  induction s as [|c s IH]; [reflexivity|]. simpl.
  rewrite word_unit_is_word_char, IH.
  destruct (is_word_char c); [|reflexivity].
  destruct (word_runs s) as [|r rs]; [reflexivity|].
  now rewrite is_word_unit_is_word.
Qed.

Lemma spec_mask w : RedactSpec.mask w = mask w.
Proof. unfold RedactSpec.mask, mask. now rewrite spec_is_profane. Qed.

(** [redact] is the spec's word-by-word masking. *)
Lemma redact_refines_spec s : redact s = RedactSpec.redact_spec s.
Proof.
  rewrite redact_word_by_word. unfold RedactSpec.redact_spec, redact_by_words.
  rewrite spec_word_runs. f_equal. apply map_ext. intros w. now rewrite spec_mask.
Qed.

End Redact.

Section RedactClaims.
Import RegExp PatternWords Redact.

Lemma replace_loop_head r :
  is_word (head_opt r) = false ->
  is_word (head_opt (replace_loop None r)) = false.
Proof.
  destruct r as [|d r]; intros Hr.
  - now rewrite replace_loop_equation_1.
  - simpl in Hr. now rewrite (replace_loop_nonword _ _ _ Hr).
Qed.

Lemma not_profane_short c : is_profane [c] = false.
Proof.
  destruct (is_profane [c]) eqn:E; [|reflexivity].
  destruct (is_profane_word _ E) as (_ & _ & Hlen). simpl in Hlen. lia.
Qed.

(** C8. [redact] replaces each whole-word, case-insensitive occurrence
    of a token by its first code unit followed by three asterisks and
    changes nothing else.  The profanity set (the seven tokens), the
    comparison without regard to case and the word characters are those
    of [RedactSpec], which takes nothing from the pattern of the code.
    For every string [s]: [redact s] is the
    word-by-word masking of the spec; wherever a profane word [w] stands
    in [s] between non-word neighbours (or the ends of [s]), the result
    is the redaction of the text before it, the first code unit of [w]
    with ["***"], and the redaction of the text after it, the replacement
    being 4 code units long and never longer than [w]; and a string with
    no such occurrence is returned unchanged.  [redact] is a function of
    its argument alone, defined on every string. *)
Theorem redact_masks_whole_words (s : jsstring) :
  redact s = RedactSpec.redact_spec s /\
  (forall pre w post,
      s = pre ++ w ++ post -> RedactSpec.is_profane w = true ->
      RedactSpec.is_word_unit (last_opt pre) = false ->
      RedactSpec.is_word_unit (head_opt post) = false ->
      redact s = redact pre ++ (firstn 1 w ++ js "***") ++ redact post /\
      length (firstn 1 w ++ js "***") = 4 /\ 4 <= length w) /\
  ((forall pre w post,
      s = pre ++ w ++ post -> RedactSpec.is_profane w = true ->
      RedactSpec.is_word_unit (last_opt pre) = false ->
      RedactSpec.is_word_unit (head_opt post) = false ->
      False) ->
   redact s = s).
Proof.
  split; [apply redact_refines_spec|split].
  - intros pre w post -> Hw Hpre Hpost.
    rewrite spec_is_profane in Hw. rewrite is_word_unit_is_word in Hpre, Hpost.
    destruct (is_profane_word _ Hw) as (Hne & Hall & Hlen).
    destruct (mask_profane _ Hw) as [Em El]. rewrite <- Em.
    repeat split; auto.
    rewrite !redact_word_by_word. unfold redact_by_words.
    rewrite (word_runs_app _ _ Hpre), (word_runs_word _ _ Hne Hall Hpost).
    rewrite map_app, concat_app. reflexivity.
  - intros Hnone. rewrite redact_word_by_word. unfold redact_by_words.
    rewrite <- (concat_word_runs s) at 2. f_equal.
    rewrite <- (map_id (word_runs s)) at 2. apply map_ext_in.
    intros w Hin. unfold mask. destruct (is_profane w) eqn:Hw; [exfalso|reflexivity].
    destruct (in_split _ _ Hin) as (l1 & l2 & E).
    destruct (is_profane_word _ Hw) as (Hne & Hall & _).
    assert (Hhead : is_word (head_opt w) = true).
    { destruct w; [congruence|]. simpl in Hall |- *.
      now apply andb_true_iff in Hall as [-> _]. }
    destruct (word_runs_whole _ _ _ _ E Hhead) as [H1 H2].
    apply (Hnone (concat l1) w (concat l2));
      rewrite ?spec_is_profane, ?is_word_unit_is_word; auto.
    rewrite <- (concat_word_runs s) at 1. rewrite E, concat_app. reflexivity.
Qed.

(** C9. [redact] is idempotent: redacting redacted text changes
    nothing. *)
Theorem redact_idempotent (s : jsstring) : redact (redact s) = redact s.
Proof.
  unfold redact.
  induction s as [s IH] using (induction_ltof1 _ (@length N)). unfold ltof in IH.
  destruct (word_span s) as [->|[(c & s' & -> & Hc)|(w & r & -> & Hne & Hw & Hr & Hl)]].
  - now rewrite !replace_loop_equation_1.
  - rewrite (replace_loop_nonword _ _ _ Hc), (replace_loop_nonword _ _ _ Hc).
    f_equal. apply IH. simpl. lia.
  - rewrite (replace_loop_word None _ _ eq_refl Hne Hw Hr).
    pose proof (replace_loop_head _ Hr) as Hx.
    unfold mask. destruct (is_profane w) eqn:Hp.
    + destruct w as [|c w]; [congruence|]. simpl in Hw.
      apply andb_true_iff in Hw as [Hc _].
      change (firstn 1 (c :: w) ++ js "***") with ([c] ++ js "***").
      rewrite <- app_assoc.
      rewrite (replace_loop_word None [c]); try reflexivity;
        [|discriminate|simpl; now rewrite Hc].
      unfold mask. rewrite not_profane_short. simpl.
      rewrite !replace_loop_nonword by reflexivity.
      rewrite (IH r Hl). reflexivity.
    + rewrite (replace_loop_word None _ _ eq_refl Hne Hw Hx).
      unfold mask. rewrite Hp. f_equal. now apply IH.
Qed.

End RedactClaims.

Example redact_scenario :
  redact (js "Fuck you, SHIT-head fucking fuck_ dick") =
  js "F*** you, S***-head fucking fuck_ d***".
Proof. reflexivity. Qed.

(** ** Flag memory *)

Section FlagMemory.
Context `{Numbers}.
Variable env : Env.

Lemma same_value_zero_refl (v : value) : same_value_zero v v = true.
Proof.
  destruct v; simpl; auto using str_eqb_refl, Nat.eqb_refl.
  - now destruct b.
  - now destruct (number_eq_dec n n).
Qed.

Lemma Map_get_set_same k t m : Map_get k (Map_set k t m) = Some t.
Proof.
  induction m as [|[k' t'] m IH]; simpl.
  - now rewrite same_value_zero_refl.
  - destruct (same_value_zero k k') eqn:E; simpl; now rewrite E.
Qed.

Lemma Map_get_delete_same k m : Map_get k (Map_delete k m) = None.
Proof.
  induction m as [|[k' t'] m IH]; simpl; [reflexivity|].
  destruct (same_value_zero k k') eqn:E; simpl; [exact IH|now rewrite E].
Qed.

Lemma rememberFlagged_eq id w :
  rememberFlagged env id w = (Ok tt, remembered env id w).
Proof. reflexivity. Qed.

Lemma wasFlaggedRecently_eq id w :
  wasFlaggedRecently env id w =
  match Map_get id (cacheTimes w) with
  | None => (Ok false, w)
  | Some t =>
      if (t =? 0)%Z then (Ok false, w)
      else if (clock env (ticks w) - t >? FLAG_TTL_MS)%Z
           then (Ok false, evicted id w)
           else (Ok true, world_tick w)
  end.
Proof.
  unfold wasFlaggedRecently, bind, read_cacheTimes, ret, Date_now, update_caches.
  destruct (Map_get id (cacheTimes w)) as [t|]; [|reflexivity].
  destruct (t =? 0)%Z; [reflexivity|].
  destruct (clock env (ticks w) - t >? FLAG_TTL_MS)%Z; reflexivity.
Qed.

(** An entry with a timestamp other than 0 is recent exactly while the
    clock is no more than the TTL past it, and the lookup that finds it
    expired removes it. *)
Lemma wasFlaggedRecently_entry id w t :
  Map_get id (cacheTimes w) = Some t -> t <> 0%Z ->
  ((clock env (ticks w) - t <= FLAG_TTL_MS)%Z ->
   wasFlaggedRecently env id w = (Ok true, world_tick w)) /\
  ((clock env (ticks w) - t > FLAG_TTL_MS)%Z ->
   wasFlaggedRecently env id w = (Ok false, evicted id w) /\
   Map_get id (cacheTimes (evicted id w)) = None).
Proof.
  intros E Ht. rewrite wasFlaggedRecently_eq, E.
  destruct (Z.eqb_spec t 0) as [|_]; [contradiction|].
  destruct (Z.gtb_spec (clock env (ticks w) - t) FLAG_TTL_MS); split; intros; try lia.
  - split; [reflexivity|]. apply Map_get_delete_same.
  - reflexivity.
Qed.

Lemma wasFlaggedRecently_absent id w :
  Map_get id (cacheTimes w) = None ->
  wasFlaggedRecently env id w = (Ok false, w).
Proof. intros E. now rewrite wasFlaggedRecently_eq, E. Qed.

(** The lookup never throws. *)
Lemma wasFlaggedRecently_returns id w :
  exists b w', wasFlaggedRecently env id w = (Ok b, w') /\
               outbox w' = outbox w /\ console w' = console w.
Proof.
  rewrite wasFlaggedRecently_eq.
  destruct (Map_get id (cacheTimes w)) as [t|]; [|now exists false, w].
  destruct (t =? 0)%Z; [now exists false, w|].
  destruct (clock env (ticks w) - t >? FLAG_TTL_MS)%Z;
    eexists; eexists; repeat split.
Qed.

(** C10. When [rememberFlagged id] runs at clock reading 0 it stores the
    timestamp 0, and the lookup that follows returns false and leaves the
    entry where it is: the stored 0 is read as no entry. *)
Theorem remember_at_clock_zero (id : value) (w : World) :
  clock env (ticks w) = 0%Z ->
  exists w1,
    rememberFlagged env id w = (Ok tt, w1) /\
    Map_get id (cacheTimes w1) = Some 0%Z /\
    wasFlaggedRecently env id w1 = (Ok false, w1).
Proof.
  intros Hclock. exists (remembered env id w).
  assert (E : Map_get id (cacheTimes (remembered env id w)) = Some 0%Z).
  { unfold remembered. simpl. rewrite Hclock. apply Map_get_set_same. }
  repeat split; [exact E|]. now rewrite wasFlaggedRecently_eq, E.
Qed.

End FlagMemory.

Lemma remember_at_clock_zero_witness :
  exists w1,
    rememberFlagged (env_at 0 None) (str "m1") empty_world = (Ok tt, w1) /\
    Map_get (str "m1") (cacheTimes w1) = Some 0%Z /\
    wasFlaggedRecently (env_at 0 None) (str "m1") w1 = (Ok false, w1).
Proof. apply (remember_at_clock_zero (env_at 0 None)). reflexivity. Defined.

(** C4, at a stored timestamp of 0.  The entry for ["m1"] exists and the
    clock is within the TTL of it, and the lookup returns false; with
    the clock past the TTL the lookup returns false and the entry is
    still there. *)
Lemma wasFlaggedRecently_zero_timestamp :
  let w := {| flaggedCache := [str "m1"]; cacheTimes := [(str "m1", 0%Z)];
              ticks := 0; outbox := []; console := [] |} in
  Map_get (str "m1") (cacheTimes w) = Some 0%Z /\
  (1000 - 0 <= FLAG_TTL_MS)%Z /\
  wasFlaggedRecently (env_at 1000 None) (str "m1") w = (Ok false, w) /\
  (400000 - 0 > FLAG_TTL_MS)%Z /\
  wasFlaggedRecently (env_at 400000 None) (str "m1") w = (Ok false, w).
Proof. repeat split; try reflexivity; discriminate. Qed.

(** ** The notice dispatcher *)

Section Dispatch.
Context `{Builtins}.
Variable env : Env.

Lemma preview_of_string v :
  string_or_absent v = true ->
  forall w, preview_of v w = (Ok (redact (firstn 120 (string_of v))), w).
Proof.
  intros Hv w. unfold preview_of.
  destruct v as [| |b|n|s|r l|r l]; simpl in *; try discriminate; try reflexivity.
  - destruct b; [discriminate|reflexivity].
  - apply negb_true_iff in Hv. rewrite Hv. reflexivity.
  - destruct s; reflexivity.
Qed.

Lemma ToString_author v :
  string_or_absent v = true ->
  forall w, ToString (if truthy v then v else VString (js "someone")) w =
            (Ok (if truthy v then string_of v else js "someone"), w).
Proof.
  intros Hv w.
  destruct v as [| |b|n|s|r l|r l]; simpl in *; try discriminate; try reflexivity.
  - destruct b; [discriminate|reflexivity].
  - apply negb_true_iff in Hv. rewrite Hv. reflexivity.
  - destruct s; reflexivity.
Qed.

(** Without an id or a conversation id, [postNotice] returns at once. *)
Lemma postNotice_missing msg w :
  truthy (get msg "id") = false \/ truthy (get msg "cid") = false ->
  postNotice_prepare env msg w = (Ok None, w) /\ postNotice env msg w = (Ok tt, w).
Proof.
  intros Hm.
  assert (E : postNotice_prepare env msg w = (Ok None, w)).
  { unfold postNotice_prepare.
    destruct Hm as [-> | ->]; cbn [negb orb]; rewrite ?orb_true_r; reflexivity. }
  split; [exact E|]. unfold postNotice, bind at 1. rewrite E. reflexivity.
Qed.

(** On a recently flagged id, [postNotice] returns after the lookup. *)
Lemma postNotice_flagged msg w w0 :
  truthy (get msg "id") = true -> truthy (get msg "cid") = true ->
  wasFlaggedRecently env (get msg "id") w = (Ok true, w0) ->
  postNotice_prepare env msg w = (Ok None, w0) /\ postNotice env msg w = (Ok tt, w0).
Proof.
  intros Hid Hcid Hf.
  assert (E : postNotice_prepare env msg w = (Ok None, w0)).
  { unfold postNotice_prepare. rewrite Hid, Hcid. cbn [negb orb].
    unfold bind at 1. rewrite Hf. reflexivity. }
  split; [exact E|]. unfold postNotice, bind at 1. rewrite E. reflexivity.
Qed.

(** Otherwise [postNotice] marks the id and then, the client handing
    out the channel and the fields being typed, has the notice to
    send. *)
Lemma postNotice_fresh msg cid w w0 :
  truthy (get msg "id") = true ->
  get msg "cid" = VString cid -> cid <> [] ->
  channel_handed_out env cid = true ->
  string_or_absent (get msg "text") = true ->
  string_or_absent (get (get msg "user") "id") = true ->
  wasFlaggedRecently env (get msg "id") w = (Ok false, w0) ->
  postNotice_prepare env msg w =
    (Ok (Some (notice_for msg)), remembered env (get msg "id") w0) /\
  snd (postNotice env msg w) =
    world_call (notice_for msg) (remembered env (get msg "id") w0).
Proof.
  intros Hid Hcid Hne Hch Htext Hauthor Hf.
  assert (E : postNotice_prepare env msg w =
              (Ok (Some (notice_for msg)), remembered env (get msg "id") w0)).
  { unfold postNotice_prepare, notice_for. rewrite Hid, Hcid.
    assert (Ht : truthy (VString cid) = true) by (destruct cid; [congruence|reflexivity]).
    rewrite Ht. cbn [negb orb].
    unfold bind at 1. rewrite Hf.
    unfold bind at 1. rewrite rememberFlagged_eq.
    unfold bind at 1. simpl ToString. unfold ret at 1. simpl string_of.
    unfold channel_handed_out in Hch.
    destruct (split_cid cid) as [type chId].
    unfold bind at 1, serverClient_channel. rewrite Hch. unfold ret at 1.
    unfold bind at 1. rewrite (preview_of_string _ Htext).
    unfold bind at 1. rewrite (ToString_author _ Hauthor).
    reflexivity. }
  split; [exact E|]. unfold postNotice, bind at 1. rewrite E.
  unfold bind, call. now destruct (backend env _).
Qed.

(** C1, for a message whose id is present and whose channel the client
    hands out.  Let the message have an id (for a string: a non-empty
    one), a non-empty conversation id for whose two names
    [serverClient.channel] returns a handle, and fields typed as the data
    model says, and let the id not be recently flagged when the first
    call starts.  If the clock reading that the first call stores is not
    0 and the reading of the second call is no more than the TTL past
    it, two calls of [postNotice] in immediate succession issue exactly
    one [sendMessage]: the first call marks the id before it sends
    anything, and the second call finds the id recently flagged and
    returns without a call to the backend. *)
Theorem postNotice_twice_one_notice (msg : value) (cid : jsstring) (w w0 : World) :
  truthy (get msg "id") = true ->
  get msg "cid" = VString cid -> cid <> [] ->
  channel_handed_out env cid = true ->
  string_or_absent (get msg "text") = true ->
  string_or_absent (get (get msg "user") "id") = true ->
  wasFlaggedRecently env (get msg "id") w = (Ok false, w0) ->
  clock env (ticks w0) <> 0%Z ->
  (clock env (S (ticks w0)) - clock env (ticks w0) <= FLAG_TTL_MS)%Z ->
  let w1 := remembered env (get msg "id") w0 in
  let w2 := world_call (notice_for msg) w1 in
  postNotice_prepare env msg w = (Ok (Some (notice_for msg)), w1) /\
  Map_get (get msg "id") (cacheTimes w1) = Some (clock env (ticks w0)) /\
  outbox w1 = outbox w /\
  snd (postNotice env msg w) = w2 /\
  wasFlaggedRecently env (get msg "id") w2 = (Ok true, world_tick w2) /\
  postNotice env msg w2 = (Ok tt, world_tick w2) /\
  outbox (snd (postNotice env msg (snd (postNotice env msg w)))) =
    outbox w ++ [notice_for msg].
Proof.
  intros Hid Hcid Hne Hch Htext Hauthor Hf Hclock Httl w1 w2.
  destruct (postNotice_fresh msg cid w w0 Hid Hcid Hne Hch Htext Hauthor Hf) as [E1 E2].
  assert (Hmark : Map_get (get msg "id") (cacheTimes w1) = Some (clock env (ticks w0))).
  { apply Map_get_set_same. }
  assert (Hout : outbox w0 = outbox w).
  { destruct (wasFlaggedRecently_returns env (get msg "id") w) as (b & w' & E & Ho & _).
    rewrite Hf in E. inversion E; subst. exact Ho. }
  assert (Hsecond : wasFlaggedRecently env (get msg "id") w2 = (Ok true, world_tick w2)).
  { apply (wasFlaggedRecently_entry env (get msg "id") w2 (clock env (ticks w0)));
      [exact Hmark|exact Hclock|exact Httl]. }
  assert (Hcall : postNotice env msg w2 = (Ok tt, world_tick w2)).
  { apply postNotice_flagged; auto. rewrite Hcid. destruct cid; [congruence|reflexivity]. }
  repeat split; auto.
  rewrite E2. fold w1 w2. rewrite Hcall. simpl. now rewrite Hout.
Qed.

(** At clock reading 0 the mark does not hold the second call back: the
    notice is sent twice. *)
Lemma dedupe_barrier_fails_at_clock_zero (msg : value) (cid : jsstring) (w w0 : World) :
  truthy (get msg "id") = true ->
  get msg "cid" = VString cid -> cid <> [] ->
  channel_handed_out env cid = true ->
  string_or_absent (get msg "text") = true ->
  string_or_absent (get (get msg "user") "id") = true ->
  wasFlaggedRecently env (get msg "id") w = (Ok false, w0) ->
  clock env (ticks w0) = 0%Z ->
  outbox (snd (postNotice env msg (snd (postNotice env msg w)))) =
    outbox w ++ [notice_for msg; notice_for msg].
Proof.
  intros Hid Hcid Hne Hch Htext Hauthor Hf Hclock.
  destruct (postNotice_fresh msg cid w w0 Hid Hcid Hne Hch Htext Hauthor Hf) as [_ ->].
  set (w2 := world_call (notice_for msg) (remembered env (get msg "id") w0)).
  assert (Hmark : Map_get (get msg "id") (cacheTimes w2) = Some 0%Z).
  { unfold w2, remembered. simpl. rewrite Hclock. apply Map_get_set_same. }
  assert (Hf2 : wasFlaggedRecently env (get msg "id") w2 = (Ok false, w2)).
  { now rewrite wasFlaggedRecently_eq, Hmark. }
  destruct (postNotice_fresh msg cid w2 w2 Hid Hcid Hne Hch Htext Hauthor Hf2) as [_ ->].
  assert (Hout : outbox w0 = outbox w).
  { destruct (wasFlaggedRecently_returns env (get msg "id") w) as (b & w' & E & Ho & _).
    rewrite Hf in E. inversion E; subst. exact Ho. }
  simpl. rewrite Hout, <- app_assoc. reflexivity.
Qed.

Lemma split_before_after sep s :
  split sep s =
  before sep s :: match after sep s with
                  | Some r => split sep r
                  | None => []
                  end.
Proof.
  induction s as [|c s IH]; [reflexivity|]. simpl.
  destruct (c =? sep)%N; [reflexivity|]. now rewrite IH.
Qed.

Lemma split_cid_segments cid :
  split_cid cid =
  (Some (before COLON cid), option_map (before COLON) (after COLON cid)).
Proof.
  unfold split_cid. rewrite split_before_after. simpl.
  destruct (after COLON cid) as [r|]; [|reflexivity].
  now rewrite split_before_after.
Qed.

(** C6, with the channel id cut at the second colon.  When [postNotice]
    has a notice to send for a message with conversation id [cid], the
    channel type is the prefix of [cid] before its first colon and the
    channel id is what stands between the first colon and the second
    (the whole remainder when there is no second colon, [undefined] when
    [cid] has no colon). *)
Theorem notice_target (msg : value) (cid : jsstring) (w w' : World) (c : Call) :
  get msg "cid" = VString cid ->
  postNotice_prepare env msg w = (Ok (Some c), w') ->
  exists text,
    c = sendMessage (Some (before COLON cid))
                    (option_map (before COLON) (after COLON cid))
                    text (js "system") (js "system-bot").
Proof.
  intros Hcid. unfold postNotice_prepare. rewrite Hcid.
  destruct (negb (truthy (get msg "id")) || negb (truthy (VString cid)));
    [discriminate|].
  unfold bind at 1.
  destruct (wasFlaggedRecently env (get msg "id") w) as [[[|]|e] w0];
    try discriminate.
  unfold bind at 1. rewrite rememberFlagged_eq.
  unfold bind at 1. simpl ToString. unfold ret at 1.
  rewrite split_cid_segments.
  unfold bind at 1. destruct (serverClient_channel _ _ _ _) as [[[]|e] w5]; [|discriminate].
  unfold bind at 1. destruct (preview_of _ _) as [[p|e] w3]; [|discriminate].
  unfold bind at 1. destruct (ToString _ _) as [[a|e] w4]; [|discriminate].
  intros E. inversion E; subst. now eexists.
Qed.

End Dispatch.

Lemma postNotice_twice_one_notice_witness :
  let env := env_at 1000 (Some VUndefined) in
  let w1 := remembered env (get flagged_m1 "id") empty_world in
  let w2 := world_call (notice_for flagged_m1) w1 in
  postNotice_prepare env flagged_m1 empty_world = (Ok (Some (notice_for flagged_m1)), w1) /\
  Map_get (get flagged_m1 "id") (cacheTimes w1) = Some 1000%Z /\
  outbox w1 = [] /\
  snd (postNotice env flagged_m1 empty_world) = w2 /\
  wasFlaggedRecently env (get flagged_m1 "id") w2 = (Ok true, world_tick w2) /\
  postNotice env flagged_m1 w2 = (Ok tt, world_tick w2) /\
  outbox (snd (postNotice env flagged_m1 (snd (postNotice env flagged_m1 empty_world)))) =
    [] ++ [notice_for flagged_m1].
Proof.
  apply (postNotice_twice_one_notice (env_at 1000 (Some VUndefined)) flagged_m1
           (js "messaging:general") empty_world empty_world);
    try reflexivity; try discriminate.
Defined.

(** C1 as stated, at the empty message id: neither call sends. *)
Lemma postNotice_twice_empty_id :
  let env := env_at 1000 (Some VUndefined) in
  let msg := message "" "messaging:general" "alice" "you fuck" in
  get msg "cid" = str "messaging:general" /\
  outbox (snd (postNotice env msg (snd (postNotice env msg empty_world)))) = [].
Proof. split; reflexivity. Qed.

Lemma notice_target_witness :
  exists text,
    notice_for flagged_m1 =
    sendMessage (Some (before COLON (js "messaging:general")))
                (option_map (before COLON) (after COLON (js "messaging:general")))
                text (js "system") (js "system-bot").
Proof.
  apply (notice_target (env_at 1000 (Some VUndefined)) flagged_m1
           (js "messaging:general") empty_world
           (remembered (env_at 1000 (Some VUndefined)) (get flagged_m1 "id") empty_world));
    reflexivity.
Defined.

(** C6 as stated, at a conversation id with two colons: the notice goes
    to channel ["room"], and the remainder after the first colon is
    ["room:1"]. *)
Lemma notice_target_second_colon :
  let env := env_at 1000 (Some VUndefined) in
  let msg := message "m1" "messaging:room:1" "alice" "hi" in
  outbox (snd (postNotice env msg empty_world)) =
    [sendMessage (Some (js "messaging")) (Some (js "room"))
                 (notice_text (js "alice") (js "hi"))
                 (js "system") (js "system-bot")] /\
  after COLON (js "messaging:room:1") = Some (js "room:1").
Proof. split; reflexivity. Qed.

(** ** The webhook handler *)

Section Webhook.
Context `{Builtins}.
Variable env : Env.

Lemma try_catch_returns {A} (m : M A) (h : exn -> M A) :
  (forall e, returns (h e)) -> returns (try_catch m h).
Proof.
  intros Hh w. unfold try_catch. destruct (m w) as [[a|e] w'].
  - now exists a, w'.
  - apply Hh.
Qed.

Lemma ret_returns {A} (a : A) : returns (ret a).
Proof. intros w. now exists a, w. Qed.

Lemma console_log_returns l : returns (console_log l).
Proof. intros w. now exists tt, (world_log l w). Qed.

Lemma then_send (m : M unit) (code : Z) (text : string) :
  returns m ->
  forall w, exists w',
    (m ;; send code text) w = (Ok {| status := code; body := js text |}, w').
Proof.
  intros Hm w. destruct (Hm w) as (a & w' & E). exists w'.
  unfold bind. now rewrite E.
Qed.

Lemma fallback_flag_returns msg text : returns (fallback_flag env msg text).
Proof.
  intros w. unfold fallback_flag.
  destruct (RegExp.test text); [|apply ret_returns].
  unfold bind at 1.
  destruct (wasFlaggedRecently_returns env (get msg "id") w) as (b & w' & -> & _).
  destruct b; simpl; [apply ret_returns|].
  apply try_catch_returns. intros _. apply console_log_returns.
Qed.

Lemma ai_queue_returns it : returns (ai_queue env it).
Proof. apply try_catch_returns. intros _. apply ret_returns. Qed.

(** C3. Whatever the body of the request, the handler answers with
    status 200 and the text ["ok"] or ["ignored"]; when the body does not
    parse, the text is ["ignored"], and the handler has done no more
    than log the error. *)
Theorem webhook_always_acknowledges (b : Body) (w : World) :
  exists text w',
    webhook env b w = (Ok {| status := 200; body := text |}, w') /\
    (text = js "ok" \/ text = js "ignored") /\
    (parse_body b = None ->
     text = js "ignored" /\ w' = world_log log_parse_error w).
Proof.
  unfold webhook. destruct (parse_body b) as [payload|].
  2:{ exists (js "ignored"), (world_log log_parse_error w).
      repeat split; auto. }
  assert (Hok : forall m : M unit, returns m ->
            exists text w',
              (m ;; send 200 "ok") w = (Ok {| status := 200; body := text |}, w') /\
              (text = js "ok" \/ text = js "ignored") /\
              (Some payload = None ->
               text = js "ignored" /\ w' = world_log log_parse_error w)).
  { intros m Hm. destruct (then_send m 200 "ok" Hm w) as (w' & E).
    exists (js "ok"), w'. repeat split; auto; discriminate. }
  assert (Hignored :
            exists text w',
              send 200 "ignored" w = (Ok {| status := 200; body := text |}, w') /\
              (text = js "ok" \/ text = js "ignored") /\
              (Some payload = None ->
               text = js "ignored" /\ w' = world_log log_parse_error w)).
  { exists (js "ignored"), w. repeat split; auto; discriminate. }
  destruct (is_str (get (get (get payload "message") "user") "id") "system-bot");
    [exact Hignored|].
  destruct (is_str (get payload "type") "message.flagged" &&
            truthy (get (get payload "message") "id")).
  { apply Hok, try_catch_returns. intros _. apply ret_returns. }
  destruct (is_str (get payload "type") "message.new" &&
            truthy (get (get payload "message") "id")),
           (get (get payload "message") "text");
    try (apply Hok, fallback_flag_returns);
    (destruct (truthy (get payload "item") &&
               (is_str (get (get payload "item") "recommended_action") "flag" ||
                is_str (get (get payload "item") "recommended_action") "remove") &&
               truthy (get (get payload "item") "message_id"));
     [apply Hok, ai_queue_returns|exact Hignored]).
Qed.

(** C5. An event whose message is authored by ["system-bot"] is answered
    ["ignored"] whatever else it carries, and the handler leaves the
    world as it was: no call to the backend, no mark in the flag
    memory. *)
Theorem system_author_ignored (b : Body) (payload : value) (w : World) :
  parse_body b = Some payload ->
  is_str (get (get (get payload "message") "user") "id") "system-bot" = true ->
  webhook env b w = (Ok {| status := 200; body := js "ignored" |}, w).
Proof. intros Hp Ha. unfold webhook. rewrite Hp. cbv zeta. rewrite Ha. reflexivity. Qed.

(** A message fetched for the AI queue and authored by ["system-bot"]
    is not announced either. *)
Lemma ai_queue_system_author it got w :
  backend env (length (outbox w)) = Some got ->
  is_str (get (get (get got "message") "user") "id") "system-bot" = true ->
  ai_queue env it w = (Ok tt, world_call (getMessage (get it "message_id")) w).
Proof.
  intros Hb Ha. unfold ai_queue, try_catch, bind, call. rewrite Hb, Ha.
  now rewrite andb_false_r.
Qed.

Lemma message_new_not_flagged v :
  is_str v "message.new" = true -> is_str v "message.flagged" = false.
Proof.
  destruct v; try discriminate. unfold is_str. intros E.
  apply str_eqb_eq in E. subst. reflexivity.
Qed.

(** C2, with the notice behind the flag call.  For a new-message event
    with an id, a text that matches the profanity pattern and an id not
    recently flagged, the handler first calls [flagMessage]; when that
    call succeeds it goes on to [postNotice], and when it fails the
    handler logs the failure and answers ["ok"] without dispatching the
    notice or marking the id. *)
Theorem fallback_flag_then_notice (b : Body) (payload : value)
    (text : jsstring) (w w0 : World) :
  parse_body b = Some payload ->
  is_str (get (get (get payload "message") "user") "id") "system-bot" = false ->
  is_str (get payload "type") "message.new" = true ->
  truthy (get (get payload "message") "id") = true ->
  get (get payload "message") "text" = VString text ->
  RegExp.test text = true ->
  wasFlaggedRecently env (get (get payload "message") "id") w = (Ok false, w0) ->
  let msg := get payload "message" in
  let flag := flagMessage (get msg "id") (js "system-bot") in
  let ok := {| status := 200; body := js "ok" |} in
  (backend env (length (outbox w0)) = None ->
   webhook env b w =
     (Ok ok, world_log log_fallback_flag_failed (world_call flag w0))) /\
  (forall v, backend env (length (outbox w0)) = Some v ->
   webhook env b w =
     (Ok ok, snd (try_catch (postNotice env msg)
                    (fun _ => console_log log_fallback_flag_failed)
                    (world_call flag w0)))).
Proof.
  intros Hp Ha Ht Hid Htext Htest Hf msg flag ok.
  assert (E : webhook env b w =
              (fallback_flag env msg text ;; send 200 "ok") w).
  { unfold webhook, msg. rewrite Hp. cbv zeta.
    rewrite Ha, (message_new_not_flagged _ Ht), Ht, Hid, Htext. reflexivity. }
  rewrite E. clear E.
  assert (E : (fallback_flag env msg text ;; send 200 "ok") w =
              match backend env (length (outbox w0)) with
              | Some _ =>
                  (Ok ok, snd (try_catch (postNotice env msg)
                                 (fun _ => console_log log_fallback_flag_failed)
                                 (world_call flag w0)))
              | None =>
                  (Ok ok, world_log log_fallback_flag_failed (world_call flag w0))
              end).
  { unfold bind at 1. unfold fallback_flag. rewrite Htest.
    unfold bind at 1. fold msg in Hf. rewrite Hf. cbn [negb].
    unfold try_catch, bind at 1, call. fold flag.
    destruct (backend env (length (outbox w0))); [|reflexivity].
    destruct (postNotice env msg (world_call flag w0)) as [[[]|e] w']; reflexivity. }
  rewrite E. split.
  - intros ->. reflexivity.
  - intros v ->. reflexivity.
Qed.

(** The flagged-message branch: the notice, with whatever it throws
    caught. *)
Lemma webhook_flagged (b : Body) (payload : value) (w : World) :
  parse_body b = Some payload ->
  is_str (get (get (get payload "message") "user") "id") "system-bot" = false ->
  is_str (get payload "type") "message.flagged" = true ->
  truthy (get (get payload "message") "id") = true ->
  webhook env b w =
    (Ok {| status := 200; body := js "ok" |},
     snd (postNotice env (get payload "message") w)).
Proof.
  intros Hp Ha Ht Hid. unfold webhook. rewrite Hp. cbv zeta.
  rewrite Ha, Ht, Hid. cbn [andb].
  unfold bind, try_catch.
  destruct (postNotice env (get payload "message") w) as [[[]|e] w']; reflexivity.
Qed.

(** A failed delivery leaves the mark, and while the mark is within the
    TTL and its timestamp is not 0 a duplicate flag event is answered
    without another delivery. *)
Lemma duplicate_flag_event_suppressed (b : Body) (payload : value) (w : World) (t : Z) :
  parse_body b = Some payload ->
  is_str (get (get (get payload "message") "user") "id") "system-bot" = false ->
  is_str (get payload "type") "message.flagged" = true ->
  truthy (get (get payload "message") "id") = true ->
  truthy (get (get payload "message") "cid") = true ->
  Map_get (get (get payload "message") "id") (cacheTimes w) = Some t ->
  t <> 0%Z -> (clock env (ticks w) - t <= FLAG_TTL_MS)%Z ->
  webhook env b w = (Ok {| status := 200; body := js "ok" |}, world_tick w).
Proof.
  intros Hp Ha Ht Hid Hcid Hm Hnz Httl.
  rewrite (webhook_flagged b payload w Hp Ha Ht Hid).
  destruct (postNotice_flagged env (get payload "message") w (world_tick w) Hid Hcid)
    as [_ ->]; [|reflexivity].
  now apply (wasFlaggedRecently_entry env _ w t).
Qed.

End Webhook.

(** ** The handler on sample events *)

Lemma system_author_ignored_witness :
  webhook (env_at 1000 (Some VUndefined))
    (OtherBody (event "message.flagged"
                  (message "n1" "messaging:general" "system-bot" "you fuck")))
    empty_world =
  (Ok {| status := 200; body := js "ignored" |}, empty_world).
Proof.
  apply (system_author_ignored (env_at 1000 (Some VUndefined))
           (OtherBody (event "message.flagged"
                         (message "n1" "messaging:general" "system-bot" "you fuck")))
           (event "message.flagged"
              (message "n1" "messaging:general" "system-bot" "you fuck")));
    reflexivity.
Defined.

Lemma fallback_flag_then_notice_witness :
  let b := OtherBody (event "message.new" profane_m2) in
  let flag := flagMessage (str "m2") (js "system-bot") in
  let ok := {| status := 200; body := js "ok" |} in
  (backend env_first_call_fails (length (outbox empty_world)) = None ->
   webhook env_first_call_fails b empty_world =
     (Ok ok, world_log log_fallback_flag_failed (world_call flag empty_world))) /\
  (forall v, backend env_first_call_fails (length (outbox empty_world)) = Some v ->
   webhook env_first_call_fails b empty_world =
     (Ok ok, snd (try_catch (postNotice env_first_call_fails profane_m2)
                    (fun _ => console_log log_fallback_flag_failed)
                    (world_call flag empty_world)))).
Proof.
  apply (fallback_flag_then_notice env_first_call_fails
           (OtherBody (event "message.new" profane_m2))
           (event "message.new" profane_m2) (js "you fuck")
           empty_world empty_world);
    reflexivity.
Defined.

(** C2 as stated, at a backend that rejects the flag call and would
    accept the notice: the handler makes the flag call, logs its
    failure and answers ["ok"]; no notice is sent and no id is marked. *)
Lemma fallback_flag_failure_skips_notice :
  webhook env_first_call_fails (OtherBody (event "message.new" profane_m2))
    empty_world =
  (Ok {| status := 200; body := js "ok" |},
   {| flaggedCache := []; cacheTimes := []; ticks := 0;
      outbox := [flagMessage (str "m2") (js "system-bot")];
      console := [log_fallback_flag_failed] |}).
Proof. reflexivity. Qed.

(** C7, at clock reading 0.  Every call to the backend fails.  The first
    flag event for ["m1"] is answered ["ok"], its delivery fails and
    the id is marked with timestamp 0; the duplicate event, with the
    clock still at 0, is answered ["ok"] as well and the delivery is
    made again. *)
Lemma failed_delivery_retried_at_clock_zero :
  let env := env_at 0 None in
  let b := OtherBody (event "message.flagged" flagged_m1) in
  let ok := {| status := 200; body := js "ok" |} in
  let w1 := snd (webhook env b empty_world) in
  let w2 := snd (webhook env b w1) in
  fst (webhook env b empty_world) = Ok ok /\
  Map_get (str "m1") (cacheTimes w1) = Some 0%Z /\
  outbox w1 = [notice_for flagged_m1] /\
  wasFlaggedRecently env (str "m1") w1 = (Ok false, w1) /\
  fst (webhook env b w1) = Ok ok /\
  outbox w2 = [notice_for flagged_m1; notice_for flagged_m1].
Proof. repeat split. Qed.

(** The scenarios of the specification. *)

Example scenario_flagged_event :
  outbox (snd (webhook (env_at 1000 (Some VUndefined))
                 (OtherBody (event "message.flagged" flagged_m1)) empty_world)) =
  [sendMessage (Some (js "messaging")) (Some (js "general"))
     (notice_text (js "alice") (js "you f***")) (js "system") (js "system-bot")].
Proof. reflexivity. Qed.

Example scenario_clean_message :
  webhook (env_at 1000 (Some VUndefined))
    (OtherBody (event "message.new"
                  (message "m2" "messaging:general" "bob" "hello friend")))
    empty_world =
  (Ok {| status := 200; body := js "ok" |}, empty_world).
Proof. reflexivity. Qed.

Example scenario_flag_then_fallback :
  let env := env_at 1000 (Some VUndefined) in
  let m3 := message "m3" "messaging:general" "carol" "oh shit" in
  let w1 := snd (webhook env (OtherBody (event "message.flagged" m3)) empty_world) in
  let w2 := snd (webhook env (OtherBody (event "message.new" m3)) w1) in
  outbox w2 = [notice_for m3].
Proof. reflexivity. Qed.

Example scenario_malformed_body :
  webhook (env_at 1000 (Some VUndefined)) (BufferBody [123; 34]%N) empty_world =
  (Ok {| status := 200; body := js "ignored" |},
   world_log log_parse_error empty_world).
Proof. reflexivity. Qed.

Example scenario_ai_queue_system_author :
  let got := obj [("message", message "m4" "messaging:general" "system-bot" "x")]%string in
  let item := obj [("item", obj [("message_id", str "m4");
                                 ("recommended_action", str "remove")])]%string in
  webhook (env_at 1000 (Some got)) (OtherBody item) empty_world =
  (Ok {| status := 200; body := js "ok" |},
   world_call (getMessage (str "m4")) empty_world).
Proof. reflexivity. Qed.

(** * Further properties *)

(** ** The redactor and the profanity test *)

Section RedactAndTest.
Import RegExp PatternWords Redact.

Lemma match_at_nil prev : match_at prev [] = None.
Proof. unfold match_at. now destruct (word_boundary prev (head_opt [])). Qed.

Lemma search_prev p q s : is_word p = is_word q -> search p s = search q s.
Proof.
  intros E.
  assert (Em : match_at p s = match_at q s).
  { unfold match_at, word_boundary. now rewrite E. }
  destruct s; simpl; now rewrite Em.
Qed.

Lemma search_nil prev : search prev [] = false.
Proof. simpl. now rewrite match_at_nil. Qed.

Lemma search_nonword prev c s :
  is_word_char c = false -> search prev (c :: s) = search None s.
Proof.
  intros Hc. simpl. rewrite (match_at_nonword prev c s Hc).
  apply search_prev. exact Hc.
Qed.

Lemma search_fresh prev r :
  is_word (head_opt r) = false -> search prev r = search None r.
Proof.
  destruct r as [|c r]; intros Hr.
  - now rewrite !search_nil.
  - simpl in Hr. now rewrite !search_nonword.
Qed.

Lemma search_inside prev w r :
  is_word prev = true -> forallb is_word_char w = true ->
  is_word (head_opt r) = false ->
  search prev (w ++ r) = search None r.
Proof.
  revert prev. induction w as [|c w IH]; intros prev Hp Hw Hr.
  - now apply search_fresh.
  - simpl in Hw. apply andb_true_iff in Hw as [Hc Hw].
    change (search prev ((c :: w) ++ r)) with
      (match match_at prev (c :: w ++ r) with
       | Some _ => true
       | None => search (Some c) (w ++ r)
       end).
    replace (match_at prev (c :: w ++ r)) with (@None (jsstring * jsstring)).
    + now apply IH.
    + unfold match_at, word_boundary. simpl. now rewrite Hp, Hc.
Qed.

(** At the start of a word the search succeeds when the word is
    profane, and goes on behind the word otherwise. *)
Lemma search_word prev w r :
  is_word prev = false -> w <> [] -> forallb is_word_char w = true ->
  is_word (head_opt r) = false ->
  search prev (w ++ r) = is_profane w || search None r.
Proof.
  intros Hp Hne Hw Hr. destruct w as [|c w]; [congruence|].
  pose proof Hw as Hw'. simpl in Hw'. apply andb_true_iff in Hw' as [Hc Hw'].
  assert (E : match_at prev ((c :: w) ++ r) =
              if is_profane (c :: w) then Some (c :: w, r) else None).
  { unfold match_at, word_boundary. simpl head_opt. simpl is_word at 2.
    rewrite Hp, Hc. simpl xorb. cbv iota.
    apply match_alternatives_word;
      auto using TOKENS_lower, TOKENS_nonempty. }
  change (search prev ((c :: w) ++ r)) with
    (match match_at prev ((c :: w) ++ r) with
     | Some _ => true
     | None => search (Some c) (w ++ r)
     end).
  rewrite E. destruct (is_profane (c :: w)); [reflexivity|].
  simpl. now apply search_inside.
Qed.

(** [PROFANITY_RE.test] finds a match exactly when one of the words of
    the input is profane. *)
Lemma test_word_runs s : test s = existsb is_profane (word_runs s).
Proof.
  unfold test.
  induction s as [s IH] using (induction_ltof1 _ (@length N)). unfold ltof in IH.
  destruct (word_span s) as [->|[(c & s' & -> & Hc)|(w & r & -> & Hne & Hw & Hr & Hl)]].
  - apply search_nil.
  - rewrite (search_nonword _ _ _ Hc), (word_runs_nonword _ _ Hc). simpl.
    rewrite not_profane_short. apply IH. simpl. lia.
  - rewrite search_word, word_runs_word by auto. simpl. f_equal. now apply IH.
Qed.

Lemma mask_length w : length (mask w) <= length w.
Proof.
  unfold mask. destruct (is_profane w) eqn:E; [|lia].
  destruct (is_profane_word _ E) as (Hne & _ & Hlen).
  destruct w; [congruence|]. simpl in *. lia.
Qed.

(** X1. Redaction never lengthens a text, so the preview of a notice,
    cut to 120 code units before it is redacted, has at most 120 code
    units. *)
Theorem redact_never_lengthens (s : jsstring) :
  length (redact s) <= length s /\
  length (redact (firstn 120 s)) <= 120.
Proof.
  assert (H : forall t, length (redact t) <= length t).
  { intros t. rewrite redact_word_by_word. unfold redact_by_words.
    rewrite <- (concat_word_runs t) at 2.
    induction (word_runs t) as [|w l IHl]; simpl; [lia|].
    rewrite !length_app. pose proof (mask_length w). lia. }
  split; [apply H|].
  pose proof (H (firstn 120 s)). pose proof (firstn_le_length 120 s). lia.
Qed.

(** X2. What [redact] returns has no match of [PROFANITY_RE], and
    [redact] changes a text exactly when [PROFANITY_RE] matches it: the
    test of the new-message branch and the redactor of the notice know
    the same words. *)
Theorem redact_agrees_with_test (s : jsstring) :
  test (redact s) = false /\ (redact s = s <-> test s = false).
Proof.
  assert (Hclean : forall t, test (redact t) = false).
  { clear s. intros s. unfold test, redact.
    induction s as [s IH] using (induction_ltof1 _ (@length N)). unfold ltof in IH.
    destruct (word_span s) as [->|[(c & s' & -> & Hc)|(w & r & -> & Hne & Hw & Hr & Hl)]].
    - rewrite replace_loop_equation_1. apply search_nil.
    - rewrite (replace_loop_nonword _ _ _ Hc), (search_nonword _ _ _ Hc).
      apply IH. simpl. lia.
    - rewrite (replace_loop_word None _ _ eq_refl Hne Hw Hr).
      pose proof (replace_loop_head _ Hr) as Hx.
      unfold mask. destruct (is_profane w) eqn:Hp.
      + destruct w as [|c w]; [congruence|]. simpl in Hw.
        apply andb_true_iff in Hw as [Hc _].
        change (firstn 1 (c :: w) ++ js "***") with ([c] ++ [42; 42; 42]%N).
        rewrite <- app_assoc.
        rewrite (search_word None [c]); try reflexivity;
          [|discriminate|simpl; now rewrite Hc].
        rewrite not_profane_short. simpl orb. simpl app.
        rewrite ?search_nonword by reflexivity.
        rewrite (search_prev _ None) by reflexivity. now apply IH.
      + rewrite (search_word None w _ eq_refl Hne Hw Hx), Hp. now apply IH. }
  split; [apply Hclean|]. split.
  - intros E. rewrite <- E. apply Hclean.
  - intros Ht. rewrite redact_word_by_word. unfold redact_by_words.
    rewrite <- (concat_word_runs s) at 2. f_equal.
    rewrite <- (map_id (word_runs s)) at 2. apply map_ext_in.
    intros w Hin. unfold mask. destruct (is_profane w) eqn:Hw; [exfalso|reflexivity].
    rewrite test_word_runs in Ht.
    assert (existsb is_profane (word_runs s) = true)
      by (apply existsb_exists; eauto).
    congruence.
Qed.

End RedactAndTest.

(** ** Splitting a conversation id *)

Lemma split_nonempty sep s : split sep s <> [].
Proof.
  destruct s as [|c s]; simpl; [discriminate|].
  destruct (c =? sep)%N; [discriminate|]. destruct (split sep s); discriminate.
Qed.

(** X3. [split] cuts at every separator and loses nothing: joining the
    pieces with the separator gives the string back, no piece holds a
    separator, and there is always a first piece.  So a conversation id
    of the form [type:id], with no colon in [type] or [id], is taken
    apart into exactly [type] and [id]. *)
Theorem split_join_round_trip (s : jsstring) :
  join COLON (split COLON s) = s /\
  Forall (fun p => ~ In COLON p) (split COLON s) /\
  split COLON s <> [] /\
  (forall t i, ~ In COLON t -> ~ In COLON i -> s = t ++ COLON :: i ->
               split_cid s = (Some t, Some i)).
Proof.
  assert (Hjoin : forall t, join COLON (split COLON t) = t).
  { induction t as [|c t IH]; [reflexivity|]. simpl.
    destruct (N.eqb_spec c COLON) as [->|Hc].
    - pose proof (split_nonempty COLON t).
      simpl. destruct (split COLON t); [congruence|]. now rewrite IH.
    - pose proof (split_nonempty COLON t).
      destruct (split COLON t) as [|p ps] eqn:E; [congruence|].
      destruct ps; simpl in *; now rewrite <- IH. }
  assert (Hfree : forall t, Forall (fun p => ~ In COLON p) (split COLON t)).
  { induction t as [|c t IH]; simpl; [repeat constructor; auto|].
    destruct (N.eqb_spec c COLON) as [->|Hc].
    - constructor; auto.
    - destruct (split COLON t) as [|p ps]; [repeat constructor; simpl; intuition|].
      inversion IH; subst. constructor; auto. simpl. intuition. }
  assert (Hbefore : forall t r, ~ In COLON t -> before COLON (t ++ r) =
                                t ++ before COLON r).
  { induction t as [|c t IH]; intros r Hn; [reflexivity|]. simpl.
    destruct (N.eqb_spec c COLON) as [->|Hc]; [simpl in Hn; intuition|].
    rewrite IH; [reflexivity|]. simpl in Hn. intuition. }
  assert (Hafter : forall t r, ~ In COLON t -> after COLON (t ++ COLON :: r) = Some r).
  { induction t as [|c t IH]; intros r Hn; [reflexivity|]. simpl.
    destruct (N.eqb_spec c COLON) as [->|Hc]; [simpl in Hn; intuition|].
    apply IH. simpl in Hn. intuition. }
  repeat split; auto using split_nonempty.
  intros t i Ht Hi ->. rewrite split_cid_segments, Hafter by assumption.
  rewrite Hbefore by assumption. simpl. rewrite ?N.eqb_refl, ?app_nil_r.
  rewrite <- (app_nil_r i) at 1. rewrite Hbefore by assumption.
  simpl. now rewrite app_nil_r.
Qed.

(** ** The flag memory as a map *)

Section FlagMemoryLaws.
Context `{Numbers}.
Variable env : Env.

Lemma same_value_zero_eq (a b c : value) :
  same_value_zero a b = true -> same_value_zero a c = same_value_zero b c.
Proof.
  destruct a, b; simpl; try discriminate; intros E.
  - reflexivity.
  - reflexivity.
  - apply eqb_prop in E. now subst.
  - destruct (number_eq_dec n n0); [now subst|discriminate].
  - apply str_eqb_eq in E. now subst.
  - apply Nat.eqb_eq in E. subst. now destruct c.
  - apply Nat.eqb_eq in E. subst. now destruct c.
Qed.

Lemma same_value_zero_sym (a b : value) :
  same_value_zero a b = same_value_zero b a.
Proof.
  destruct (same_value_zero a b) eqn:E.
  - rewrite <- (same_value_zero_eq _ _ _ E). symmetry. apply same_value_zero_refl.
  - destruct (same_value_zero b a) eqn:E'; [|reflexivity].
    rewrite <- (same_value_zero_eq _ _ _ E'), same_value_zero_refl in E.
    discriminate.
Qed.

Lemma same_value_zero_eq_r (a b c : value) :
  same_value_zero a b = true -> same_value_zero c a = same_value_zero c b.
Proof.
  intros E. rewrite (same_value_zero_sym c a), (same_value_zero_sym c b).
  now apply same_value_zero_eq.
Qed.

Lemma Map_get_set k k' t m :
  Map_get k' (Map_set k t m) =
  if same_value_zero k' k then Some t else Map_get k' m.
Proof.
  induction m as [|[k2 t2] m IH]; simpl; [reflexivity|].
  destruct (same_value_zero k k2) eqn:E; simpl.
  - rewrite (same_value_zero_eq_r _ _ k' E).
    now destruct (same_value_zero k' k2).
  - rewrite IH. destruct (same_value_zero k' k2) eqn:E2; [|reflexivity].
    destruct (same_value_zero k' k) eqn:E3; [|reflexivity].
    rewrite (same_value_zero_eq _ _ k2 E3) in E2.
    rewrite same_value_zero_sym in E3. congruence.
Qed.

Lemma Map_get_delete k k' m :
  Map_get k' (Map_delete k m) =
  if same_value_zero k' k then None else Map_get k' m.
Proof.
  induction m as [|[k2 t2] m IH]; simpl.
  - now destruct (same_value_zero k' k).
  - destruct (same_value_zero k k2) eqn:E; simpl; rewrite IH.
    + rewrite <- (same_value_zero_eq_r _ _ k' E).
      now destruct (same_value_zero k' k).
    + destruct (same_value_zero k' k2) eqn:E2; [|reflexivity].
      destruct (same_value_zero k' k) eqn:E3; [|reflexivity].
      rewrite (same_value_zero_eq _ _ k2 E3) in E2. congruence.
Qed.

Lemma Set_add_has k k' s :
  existsb (same_value_zero k') (Set_add k s) =
  same_value_zero k' k || existsb (same_value_zero k') s.
Proof.
  unfold Set_add. destruct (existsb (same_value_zero k) s) eqn:E.
  - destruct (same_value_zero k' k) eqn:E'; [|reflexivity]. simpl.
    apply existsb_exists in E as (e & Hin & He). apply existsb_exists.
    exists e. split; [exact Hin|]. now rewrite (same_value_zero_eq _ _ e E').
  - rewrite existsb_app. simpl. rewrite orb_false_r. apply orb_comm.
Qed.

Lemma Set_delete_has k k' s :
  existsb (same_value_zero k') (Set_delete k s) =
  negb (same_value_zero k' k) && existsb (same_value_zero k') s.
Proof.
  unfold Set_delete. induction s as [|e s IH]; simpl.
  - now rewrite andb_false_r.
  - destruct (same_value_zero k e) eqn:E; simpl; rewrite IH.
    + rewrite <- (same_value_zero_eq_r _ _ k' E).
      now destruct (same_value_zero k' k).
    + destruct (same_value_zero k' e) eqn:E2; [|reflexivity]. simpl.
      destruct (same_value_zero k' k) eqn:E3; [|reflexivity].
      rewrite (same_value_zero_eq _ _ e E3) in E2. congruence.
Qed.

(** X4. [rememberFlagged id] is an insert: afterwards the timestamp
    looked up for a key is the clock reading of the call when the key is
    the same value as [id], and what it was before otherwise; and the set
    of announced ids has gained [id] and nothing else. *)
Theorem rememberFlagged_insert (id k : value) (w : World) :
  let w' := snd (rememberFlagged env id w) in
  Map_get k (cacheTimes w') =
    (if same_value_zero k id then Some (clock env (ticks w))
     else Map_get k (cacheTimes w)) /\
  existsb (same_value_zero k) (flaggedCache w') =
    same_value_zero k id || existsb (same_value_zero k) (flaggedCache w).
Proof.
  rewrite rememberFlagged_eq. simpl. split.
  - apply Map_get_set.
  - apply Set_add_has.
Qed.

(** X5. The lookup that finds the entry of [id] expired removes that
    entry from the map and the set and touches no other id. *)
Theorem eviction_removes_only_the_expired_id (id k : value) (w : World) (t : Z) :
  Map_get id (cacheTimes w) = Some t -> t <> 0%Z ->
  (clock env (ticks w) - t > FLAG_TTL_MS)%Z ->
  let w' := snd (wasFlaggedRecently env id w) in
  fst (wasFlaggedRecently env id w) = Ok false /\
  Map_get k (cacheTimes w') =
    (if same_value_zero k id then None else Map_get k (cacheTimes w)) /\
  existsb (same_value_zero k) (flaggedCache w') =
    negb (same_value_zero k id) && existsb (same_value_zero k) (flaggedCache w).
Proof.
  intros E Ht Hexp.
  destruct (wasFlaggedRecently_entry env id w t E Ht) as [_ Hx].
  destruct (Hx Hexp) as [-> _]. simpl. repeat split.
  - apply Map_get_delete.
  - apply Set_delete_has.
Qed.

Lemma caches_in_sync_remembered id w :
  caches_in_sync w -> caches_in_sync (remembered env id w).
Proof.
  intros Hs k. unfold remembered. simpl.
  rewrite Set_add_has, Map_get_set, Hs.
  now destruct (same_value_zero k id).
Qed.

Lemma caches_in_sync_evicted id w :
  caches_in_sync w -> caches_in_sync (evicted id w).
Proof.
  intros Hs k. unfold evicted. simpl.
  rewrite Set_delete_has, Map_get_delete, Hs.
  now destruct (same_value_zero k id).
Qed.

(** What a run of [steps] keeps and changes. *)
Lemma steps_app P l1 l2 w w1 w2 :
  steps env P l1 w w1 -> steps env P l2 w1 w2 -> steps env P (l1 ++ l2) w w2.
Proof.
  intros H1 H2. induction H2.
  - now rewrite app_nil_r.
  - apply steps_tick; auto.
  - apply steps_log; auto.
  - apply steps_remember; auto.
  - apply steps_evict; auto.
  - rewrite app_assoc. apply steps_call; auto.
Qed.

Lemma steps_weaken (P Q : value -> Prop) l w w' :
  (forall id, P id -> Q id) -> steps env P l w w' -> steps env Q l w w'.
Proof. intros HPQ Hs. induction Hs; econstructor; eauto. Qed.

Lemma steps_outbox P l w w' :
  steps env P l w w' -> outbox w' = outbox w ++ l.
Proof.
  induction 1; simpl; auto.
  - now rewrite app_nil_r.
  - rewrite IHsteps. now rewrite app_assoc.
Qed.

Lemma steps_in_sync P l w w' :
  steps env P l w w' -> caches_in_sync w -> caches_in_sync w'.
Proof.
  induction 1; intros Hs; auto.
  - now apply caches_in_sync_remembered, IHsteps.
  - now apply caches_in_sync_evicted, IHsteps.
Qed.

Lemma steps_frame P l w w' k :
  steps env P l w w' ->
  (forall id, P id -> same_value_zero k id = false) ->
  Map_get k (cacheTimes w') = Map_get k (cacheTimes w).
Proof.
  induction 1; intros Hk; auto.
  - unfold remembered. simpl. rewrite Map_get_set, (Hk id) by assumption. auto.
  - unfold evicted. simpl. rewrite Map_get_delete, (Hk id) by assumption. auto.
Qed.

End FlagMemoryLaws.

Lemma eviction_removes_only_the_expired_id_witness :
  let env := env_at 400000 None in
  let w := {| flaggedCache := [str "m1"; str "m2"];
              cacheTimes := [(str "m1", 1000%Z); (str "m2", 399000%Z)];
              ticks := 0; outbox := []; console := [] |} in
  let w' := snd (wasFlaggedRecently env (str "m1") w) in
  fst (wasFlaggedRecently env (str "m1") w) = Ok false /\
  Map_get (str "m2") (cacheTimes w') =
    (if same_value_zero (str "m2") (str "m1") then None
     else Map_get (str "m2") (cacheTimes w)) /\
  existsb (same_value_zero (str "m2")) (flaggedCache w') =
    negb (same_value_zero (str "m2") (str "m1")) &&
    existsb (same_value_zero (str "m2")) (flaggedCache w).
Proof.
  apply (eviction_removes_only_the_expired_id (env_at 400000 None)
           (str "m1") (str "m2") _ 1000%Z); [reflexivity|discriminate|reflexivity].
Defined.

(** ** Runs of the dispatcher and of the handler *)

Section Runs.
Context `{Builtins}.
Variable env : Env.

Lemma ToString_pure v w : snd (ToString v w) = w.
Proof.
  unfold ToString. destruct v; try reflexivity;
    now destruct (ToString_other _).
Qed.

Lemma preview_of_pure v w : snd (preview_of v w) = w.
Proof.
  unfold preview_of. destruct (truthy v); [|reflexivity].
  destruct v; reflexivity.
Qed.

Lemma wasFlaggedRecently_steps (P : value -> Prop) id w :
  P id -> steps env P [] w (snd (wasFlaggedRecently env id w)).
Proof.
  intros Hid. rewrite wasFlaggedRecently_eq.
  destruct (Map_get id (cacheTimes w)) as [t|]; [|constructor].
  destruct (t =? 0)%Z; [constructor|].
  destruct (clock env (ticks w) - t >? FLAG_TTL_MS)%Z; simpl.
  - apply steps_evict; [exact Hid|constructor].
  - apply steps_tick. constructor.
Qed.

(** Up to its [await], [postNotice] makes no call and touches the flag
    memory at the id of its message only; what it then has to send is a
    [sendMessage]. *)
Lemma postNotice_prepare_steps msg w r w' :
  postNotice_prepare env msg w = (r, w') ->
  steps env (fun id => id = get msg "id") [] w w' /\
  (forall c, r = Ok (Some c) -> is_send c = true).
Proof.
  unfold postNotice_prepare.
  destruct (negb (truthy (get msg "id")) || negb (truthy (get msg "cid"))).
  { intros E. inversion E; subst. split; [constructor|discriminate]. }
  unfold bind at 1.
  pose proof (wasFlaggedRecently_steps (fun id => id = get msg "id")
                (get msg "id") w eq_refl) as Hs.
  destruct (wasFlaggedRecently env (get msg "id") w) as [[[|]|e] w0];
    simpl in Hs;
    try (intros E; inversion E; subst; split; [exact Hs|discriminate]).
  unfold bind at 1. rewrite rememberFlagged_eq.
  assert (Hs1 : steps env (fun id => id = get msg "id") [] w
                  (remembered env (get msg "id") w0))
    by (apply steps_remember; auto).
  set (w1 := remembered env (get msg "id") w0) in *.
  unfold bind at 1.
  pose proof (ToString_pure (get msg "cid") w1) as Hp1.
  destruct (ToString (get msg "cid") w1) as [[cid_s|e] w2]; simpl in Hp1; subst w2;
    [|intros E; inversion E; subst; split; [exact Hs1|discriminate]].
  destruct (split_cid cid_s) as [type chId].
  unfold bind at 1, serverClient_channel.
  destruct (channel_allowed env type chId);
    [unfold ret at 1
    |unfold throw at 1; intros E; inversion E; subst; split; [exact Hs1|discriminate]].
  unfold bind at 1.
  pose proof (preview_of_pure (get msg "text") w1) as Hp2.
  destruct (preview_of (get msg "text") w1) as [[p|e] w2]; simpl in Hp2; subst w2;
    [|intros E; inversion E; subst; split; [exact Hs1|discriminate]].
  unfold bind at 1.
  match goal with |- context [ToString ?a w1] =>
    pose proof (ToString_pure a w1) as Hp3;
    destruct (ToString a w1) as [[a_s|e] w2]; simpl in Hp3; subst w2
  end; [|intros E; inversion E; subst; split; [exact Hs1|discriminate]].
  intros E. inversion E; subst. split; [exact Hs1|].
  intros c Hc. inversion Hc. reflexivity.
Qed.

Lemma postNotice_steps msg w :
  exists l,
    steps env (fun id => id = get msg "id") l w (snd (postNotice env msg w)) /\
    (l = [] \/ exists c, l = [c] /\ is_send c = true).
Proof.
  unfold postNotice, bind at 1.
  destruct (postNotice_prepare env msg w) as [[[c|]|e] w1] eqn:E;
    destruct (postNotice_prepare_steps msg w _ _ E) as [Hs Hsend].
  - exists [c]. split.
    + unfold bind, call. destruct (backend env _); simpl;
        apply (steps_call env _ c [] w w1 Hs).
    + right. exists c. split; [reflexivity|]. now apply Hsend.
  - exists []. split; [exact Hs|now left].
  - exists []. split; [exact Hs|now left].
Qed.

Lemma call_then_postNotice_steps c msg w :
  is_send c = false ->
  exists l,
    steps env (fun _ => True) l w (snd ((call env c ;; postNotice env msg) w)) /\
    one_notice_at_most l.
Proof.
  intros Hc. unfold bind at 1, call.
  destruct (backend env (length (outbox w))).
  - destruct (postNotice_steps msg (world_call c w)) as (l & Hs & Hl).
    exists ([c] ++ l). split.
    + apply (steps_app env _ [c] l w (world_call c w)).
      * apply (steps_call env _ c [] w w). constructor.
      * eapply steps_weaken; [|exact Hs]. auto.
    + destruct Hl as [->|(c' & -> & Hc')]; unfold one_notice_at_most; simpl;
        rewrite Hc; try rewrite Hc'; simpl; lia.
  - exists [c]. split.
    + apply (steps_call env _ c [] w w). constructor.
    + unfold one_notice_at_most. simpl. rewrite Hc. simpl. lia.
Qed.

Lemma try_catch_steps {A} (m : M A) (h : exn -> M A) (P : value -> Prop) l w :
  steps env P l w (snd (m w)) ->
  (forall e w1, snd (h e w1) = w1 \/ exists line, snd (h e w1) = world_log line w1) ->
  steps env P l w (snd (try_catch m h w)).
Proof.
  intros Hs Hh. unfold try_catch. destruct (m w) as [[a|e] w1]; simpl in *; auto.
  destruct (Hh e w1) as [->|(line & ->)]; [exact Hs|now apply steps_log].
Qed.

Lemma then_send_world (m : M unit) code text w :
  returns m ->
  snd ((m ;; send code text) w) = snd (m w).
Proof.
  intros Hm. destruct (Hm w) as (a & w' & E). unfold bind. now rewrite E.
Qed.

Lemma webhook_steps (b : Body) (w : World) :
  exists l,
    steps env (fun _ => True) l w (snd (webhook env b w)) /\ one_notice_at_most l.
Proof.
  assert (Hnone : one_notice_at_most []) by (unfold one_notice_at_most; simpl; lia).
  unfold webhook. destruct (parse_body b) as [payload|].
  2:{ exists []. split; [|exact Hnone]. simpl. apply steps_log. constructor. }
  cbv zeta.
  assert (Hignored : exists l,
             steps env (fun _ => True) l w (snd (send 200 "ignored" w)) /\
             one_notice_at_most l).
  { exists []. split; [constructor|exact Hnone]. }
  destruct (is_str (get (get (get payload "message") "user") "id") "system-bot");
    [exact Hignored|].
  destruct (is_str (get payload "type") "message.flagged" &&
            truthy (get (get payload "message") "id")).
  { rewrite then_send_world
      by (apply try_catch_returns; intros _; apply ret_returns).
    destruct (postNotice_steps (get payload "message") w) as (l & Hs & Hl).
    exists l. split.
    - apply try_catch_steps; [|now left].
      eapply steps_weaken; [|exact Hs]. auto.
    - destruct Hl as [->|(c & -> & Hc)]; [exact Hnone|].
      unfold one_notice_at_most. simpl. rewrite Hc. simpl. lia. }
  assert (Hitem : exists l,
             steps env (fun _ => True) l w
               (snd ((if truthy (get payload "item") &&
                         (is_str (get (get payload "item") "recommended_action") "flag" ||
                          is_str (get (get payload "item") "recommended_action") "remove") &&
                         truthy (get (get payload "item") "message_id")
                      then ai_queue env (get payload "item") ;; send 200 "ok"
                      else send 200 "ignored") w)) /\
             one_notice_at_most l).
  { destruct (truthy (get payload "item") && _ && _); [|exact Hignored].
    rewrite then_send_world by apply ai_queue_returns.
    set (it := get payload "item").
    set (c := getMessage (get it "message_id")).
    unfold ai_queue, try_catch. unfold bind at 1, call. fold c.
    destruct (backend env (length (outbox w))) as [got|].
    - fold (world_call c w).
      destruct (truthy (get got "message") && _).
      + destruct (postNotice_steps (get got "message") (world_call c w))
          as (l & Hs & Hl).
        exists ([c] ++ l). split.
        * apply (steps_app env _ [c] l w (world_call c w)).
          -- apply (steps_call env _ c [] w w). constructor.
          -- destruct (postNotice env (get got "message") (world_call c w))
               as [[[]|e] w']; simpl in *;
               (eapply steps_weaken; [|exact Hs]); auto.
        * destruct Hl as [->|(c' & -> & Hc')]; unfold one_notice_at_most; simpl;
            try rewrite Hc'; simpl; lia.
      + exists [c]. split.
        * apply (steps_call env _ c [] w w). constructor.
        * unfold one_notice_at_most. simpl. lia.
    - exists [c]. split.
      + apply (steps_call env _ c [] w w). constructor.
      + unfold one_notice_at_most. simpl. lia. }
  destruct (is_str (get payload "type") "message.new" &&
            truthy (get (get payload "message") "id")),
           (get (get payload "message") "text"); try exact Hitem.
  rewrite then_send_world by apply fallback_flag_returns.
  unfold fallback_flag. destruct (RegExp.test s); [|exists []; split; [constructor|exact Hnone]].
  unfold bind at 1.
  pose proof (wasFlaggedRecently_steps (fun _ => True)
                (get (get payload "message") "id") w I) as Hs0.
  destruct (wasFlaggedRecently env (get (get payload "message") "id") w)
    as [[[|]|e] w0]; simpl in Hs0 |- *;
    try (exists []; split; [exact Hs0|exact Hnone]).
  destruct (call_then_postNotice_steps
              (flagMessage (get (get payload "message") "id") (js "system-bot"))
              (get payload "message") w0 eq_refl) as (l & Hs & Hl).
  exists l. split; [|exact Hl].
  rewrite <- (app_nil_l l).
  apply (steps_app env _ [] l w w0 _ Hs0).
  apply try_catch_steps; [exact Hs|].
  intros e w1. right. now exists log_fallback_flag_failed.
Qed.

(** X6. One event makes at most two calls to the backend and sends at
    most one notice: the handler only appends to the calls made so far,
    what it appends is no longer than two calls and holds no more than
    one [sendMessage]. *)
Theorem webhook_one_notice_at_most (b : Body) (w : World) :
  exists l,
    outbox (snd (webhook env b w)) = outbox w ++ l /\
    length l <= 2 /\ length (filter is_send l) <= 1.
Proof.
  destruct (webhook_steps b w) as (l & Hs & Hl). exists l.
  split; [apply (steps_outbox env _ _ _ _ Hs)|exact Hl].
Qed.

(** X7. The handler keeps the set [flaggedCache] and the map
    [cacheTimes] in step: when they hold the same ids before an event,
    they hold the same ids after it, whatever the event and whatever the
    backend answers. *)
Theorem webhook_keeps_caches_in_sync (b : Body) (w : World) :
  caches_in_sync w -> caches_in_sync (snd (webhook env b w)).
Proof.
  destruct (webhook_steps b w) as (l & Hs & _).
  apply (steps_in_sync env _ _ _ _ Hs).
Qed.

(** X8. [postNotice] touches the flag memory at the id of its message
    only: the timestamp stored for any other key is the same after the
    call as before it, whether the call sends, returns early or
    throws. *)
Theorem postNotice_touches_only_its_id (msg k : value) (w : World) :
  same_value_zero k (get msg "id") = false ->
  Map_get k (cacheTimes (snd (postNotice env msg w))) = Map_get k (cacheTimes w).
Proof.
  intros Hk. destruct (postNotice_steps msg w) as (l & Hs & _).
  apply (steps_frame env _ _ _ _ k Hs). now intros id ->.
Qed.

End Runs.

Lemma webhook_keeps_caches_in_sync_witness :
  caches_in_sync empty_world /\
  caches_in_sync
    (snd (webhook (env_at 1000 (Some VUndefined))
            (OtherBody (event "message.flagged" flagged_m1)) empty_world)).
Proof.
  assert (H0 : caches_in_sync empty_world) by (intros k; reflexivity).
  split; [exact H0|].
  apply (webhook_keeps_caches_in_sync (env_at 1000 (Some VUndefined))
           (OtherBody (event "message.flagged" flagged_m1)) empty_world H0).
Defined.

Lemma postNotice_touches_only_its_id_witness :
  let env := env_at 1000 (Some VUndefined) in
  let w := {| flaggedCache := [str "m2"]; cacheTimes := [(str "m2", 900%Z)];
              ticks := 0; outbox := []; console := [] |} in
  Map_get (str "m2") (cacheTimes (snd (postNotice env flagged_m1 w))) =
  Map_get (str "m2") (cacheTimes w).
Proof.
  apply (postNotice_touches_only_its_id (env_at 1000 (Some VUndefined))
           flagged_m1 (str "m2")).
  reflexivity.
Defined.

(** ** More of the dispatcher and the handler *)

Section MoreOfTheHandler.
Context `{Builtins}.
Variable env : Env.

(** X9. Once the TTL has passed, the same message is announced again:
    when the entry of its id is older than the TTL and the client hands
    out the channel of the message, [postNotice] evicts the entry, marks
    the id with the reading of the clock that follows and sends the
    notice. *)
Theorem postNotice_again_after_ttl (msg : value) (cid : jsstring) (w : World) (t : Z) :
  truthy (get msg "id") = true ->
  get msg "cid" = VString cid -> cid <> [] ->
  channel_handed_out env cid = true ->
  string_or_absent (get msg "text") = true ->
  string_or_absent (get (get msg "user") "id") = true ->
  Map_get (get msg "id") (cacheTimes w) = Some t -> t <> 0%Z ->
  (clock env (ticks w) - t > FLAG_TTL_MS)%Z ->
  let w' := snd (postNotice env msg w) in
  outbox w' = outbox w ++ [notice_for msg] /\
  Map_get (get msg "id") (cacheTimes w') = Some (clock env (S (ticks w))).
Proof.
  intros Hid Hcid Hne Hch Htext Hauthor Hm Ht Hexp w'.
  destruct (wasFlaggedRecently_entry env _ w t Hm Ht) as [_ Hx].
  destruct (Hx Hexp) as [Hf _].
  destruct (postNotice_fresh env msg cid w _ Hid Hcid Hne Hch Htext Hauthor Hf) as [_ E].
  unfold w'. rewrite E. split; [reflexivity|].
  apply Map_get_set_same.
Qed.

(** X10. A truthy text that is not a string makes [postNotice] throw
    after it has marked the id and before it sends: the client's error
    where [serverClient.channel] refuses the names, which comes first, a
    TypeError where it hands out the channel.  The id is then held as
    announced although no call was made to the backend. *)
Theorem postNotice_bad_text_marks_without_notice
    (msg : value) (cid : jsstring) (w w0 : World) :
  truthy (get msg "id") = true ->
  get msg "cid" = VString cid -> cid <> [] ->
  truthy (get msg "text") = true ->
  (forall s, get msg "text" <> VString s) ->
  wasFlaggedRecently env (get msg "id") w = (Ok false, w0) ->
  postNotice env msg w =
    (Threw (if channel_handed_out env cid then TypeError else BackendError),
     remembered env (get msg "id") w0) /\
  outbox (remembered env (get msg "id") w0) = outbox w /\
  Map_get (get msg "id") (cacheTimes (remembered env (get msg "id") w0)) =
    Some (clock env (ticks w0)).
Proof.
  intros Hid Hcid Hne Htext Hnot Hf.
  assert (Hout : outbox w0 = outbox w).
  { destruct (wasFlaggedRecently_returns env (get msg "id") w) as (b & w' & E & Ho & _).
    rewrite Hf in E. inversion E; subst. exact Ho. }
  repeat split; [|exact Hout|apply Map_get_set_same].
  unfold postNotice, bind at 1. unfold postNotice_prepare. rewrite Hid, Hcid.
  assert (Ht : truthy (VString cid) = true) by (destruct cid; [congruence|reflexivity]).
  rewrite Ht. cbn [negb orb].
  unfold bind at 1. rewrite Hf.
  unfold bind at 1. rewrite rememberFlagged_eq.
  unfold bind at 1. simpl ToString. unfold ret at 1.
  unfold channel_handed_out. destruct (split_cid cid) as [type chId].
  unfold bind at 1, serverClient_channel.
  destruct (channel_allowed env type chId); [|reflexivity].
  unfold ret at 1. unfold bind at 1. unfold preview_of. rewrite Htext.
  destruct (get msg "text") eqn:E; try reflexivity.
  exfalso. now apply (Hnot s).
Qed.

(** X21. A channel that the client refuses costs the notice: where
    [serverClient.channel] throws for the names of the conversation id,
    [postNotice] throws the client's error after it has marked the id
    and before any call to the backend, and a second call within the
    TTL finds the id recently flagged and returns without a call. *)
Theorem postNotice_refused_channel_loses_notice
    (msg : value) (cid : jsstring) (w w0 : World) :
  truthy (get msg "id") = true ->
  get msg "cid" = VString cid -> cid <> [] ->
  channel_handed_out env cid = false ->
  wasFlaggedRecently env (get msg "id") w = (Ok false, w0) ->
  clock env (ticks w0) <> 0%Z ->
  (clock env (S (ticks w0)) - clock env (ticks w0) <= FLAG_TTL_MS)%Z ->
  let w1 := remembered env (get msg "id") w0 in
  postNotice env msg w = (Threw BackendError, w1) /\
  outbox w1 = outbox w /\
  postNotice env msg w1 = (Ok tt, world_tick w1).
Proof.
  intros Hid Hcid Hne Hch Hf Hclock Httl w1.
  assert (Ht : truthy (get msg "cid") = true).
  { rewrite Hcid. destruct cid; [congruence|reflexivity]. }
  assert (Hout : outbox w0 = outbox w).
  { destruct (wasFlaggedRecently_returns env (get msg "id") w) as (b & w' & E & Ho & _).
    rewrite Hf in E. inversion E; subst. exact Ho. }
  repeat split; [|exact Hout|].
  - unfold postNotice, bind at 1. unfold postNotice_prepare. rewrite Hid, Ht.
    cbn [negb orb].
    unfold bind at 1. rewrite Hf.
    unfold bind at 1. rewrite rememberFlagged_eq.
    unfold bind at 1. rewrite Hcid. simpl ToString. unfold ret at 1.
    unfold channel_handed_out in Hch. destruct (split_cid cid) as [type chId].
    unfold bind at 1, serverClient_channel. rewrite Hch. reflexivity.
  - apply postNotice_flagged; auto.
    apply (wasFlaggedRecently_entry env (get msg "id") w1 (clock env (ticks w0)));
      [apply Map_get_set_same|exact Hclock|exact Httl].
Qed.

(** X11. A new-message event for an id that is recently flagged makes
    no call at all, not even [flagMessage]: the handler reads the clock
    once and answers ["ok"]. *)
Theorem new_message_duplicate_makes_no_call (b : Body) (payload : value)
    (text : jsstring) (w : World) (t : Z) :
  parse_body b = Some payload ->
  is_str (get (get (get payload "message") "user") "id") "system-bot" = false ->
  is_str (get payload "type") "message.new" = true ->
  truthy (get (get payload "message") "id") = true ->
  get (get payload "message") "text" = VString text ->
  RegExp.test text = true ->
  Map_get (get (get payload "message") "id") (cacheTimes w) = Some t ->
  t <> 0%Z -> (clock env (ticks w) - t <= FLAG_TTL_MS)%Z ->
  webhook env b w = (Ok {| status := 200; body := js "ok" |}, world_tick w).
Proof.
  intros Hp Ha Ht Hid Htext Htest Hm Hnz Httl.
  destruct (wasFlaggedRecently_entry env _ w t Hm Hnz) as [Hf _].
  specialize (Hf Httl).
  unfold webhook. rewrite Hp. cbv zeta.
  rewrite Ha, (message_new_not_flagged _ Ht), Ht, Hid, Htext. cbn [andb].
  unfold bind at 1. unfold fallback_flag. rewrite Htest.
  unfold bind at 1. rewrite Hf. reflexivity.
Qed.

(** X12. The answer of the handler is decided by the request body
    alone: the clock, the flag memory and what the backend answers or
    rejects change nothing in it. *)
Theorem webhook_response_depends_on_body_only
    (env' : Env) (b : Body) (w w' : World) :
  fst (webhook env b w) = fst (webhook env' b w').
Proof.
  assert (Hsend : forall (m1 m2 : M unit) code text,
             returns m1 -> returns m2 ->
             fst ((m1 ;; send code text) w) = fst ((m2 ;; send code text) w')).
  { intros m1 m2 code text H1 H2.
    destruct (then_send m1 code text H1 w) as (w1 & ->).
    destruct (then_send m2 code text H2 w') as (w2 & ->). reflexivity. }
  unfold webhook. destruct (parse_body b) as [payload|]; [|reflexivity].
  cbv zeta.
  destruct (is_str (get (get (get payload "message") "user") "id") "system-bot");
    [reflexivity|].
  destruct (is_str (get payload "type") "message.flagged" &&
            truthy (get (get payload "message") "id")).
  { apply Hsend; apply try_catch_returns; intros _; apply ret_returns. }
  destruct (is_str (get payload "type") "message.new" &&
            truthy (get (get payload "message") "id")),
           (get (get payload "message") "text");
    try (apply Hsend; apply fallback_flag_returns);
    (destruct (truthy (get payload "item") &&
               (is_str (get (get payload "item") "recommended_action") "flag" ||
                is_str (get (get payload "item") "recommended_action") "remove") &&
               truthy (get (get payload "item") "message_id"));
     [apply Hsend; apply ai_queue_returns|reflexivity]).
Qed.

(** X13. An AI-queue event whose message cannot be used ends after the
    fetch: when [getMessage] fails, or what it returns has no message or
    a message by ["system-bot"], the handler has made that one call, has
    left the flag memory alone and answers ["ok"]. *)
Theorem ai_queue_without_usable_message (b : Body) (payload : value) (w : World) :
  parse_body b = Some payload ->
  get payload "message" = VUndefined ->
  truthy (get payload "item") = true ->
  (is_str (get (get payload "item") "recommended_action") "flag" ||
   is_str (get (get payload "item") "recommended_action") "remove") = true ->
  truthy (get (get payload "item") "message_id") = true ->
  (backend env (length (outbox w)) = None \/
   exists got, backend env (length (outbox w)) = Some got /\
               (truthy (get got "message") = false \/
                is_str (get (get (get got "message") "user") "id") "system-bot" = true)) ->
  webhook env b w =
    (Ok {| status := 200; body := js "ok" |},
     world_call (getMessage (get (get payload "item") "message_id")) w).
Proof.
  intros Hp Hmsg Hit Hact Hmid Hback.
  unfold webhook. rewrite Hp. cbv zeta. rewrite Hmsg.
  change (is_str (get (get VUndefined "user") "id") "system-bot") with false.
  change (truthy (get VUndefined "id")) with false.
  rewrite !andb_false_r. cbv iota.
  rewrite Hit, Hact, Hmid. cbn [andb].
  unfold bind at 1, ai_queue, try_catch. unfold bind at 1, call.
  destruct Hback as [->|(got & -> & [Hg|Hg])]; try reflexivity.
  - rewrite Hg. reflexivity.
  - rewrite Hg, andb_false_r. reflexivity.
Qed.

End MoreOfTheHandler.

Lemma postNotice_again_after_ttl_witness :
  let env := env_at 400000 (Some VUndefined) in
  let w := {| flaggedCache := [str "m1"]; cacheTimes := [(str "m1", 1000%Z)];
              ticks := 0; outbox := []; console := [] |} in
  let w' := snd (postNotice env flagged_m1 w) in
  outbox w' = outbox w ++ [notice_for flagged_m1] /\
  Map_get (get flagged_m1 "id") (cacheTimes w') = Some (clock env (S (ticks w))).
Proof.
  apply (postNotice_again_after_ttl (env_at 400000 (Some VUndefined)) flagged_m1
           (js "messaging:general") _ 1000%Z);
    try reflexivity; discriminate.
Defined.

Lemma postNotice_bad_text_marks_without_notice_witness :
  let env := env_at 1000 (Some VUndefined) in
  let w1 := remembered env (get numeric_text_m1 "id") empty_world in
  postNotice env numeric_text_m1 empty_world =
    (Threw (if channel_handed_out env (js "messaging:general")
            then TypeError else BackendError), w1) /\
  outbox w1 = outbox empty_world /\
  Map_get (get numeric_text_m1 "id") (cacheTimes w1) =
    Some (clock env (ticks empty_world)).
Proof.
  apply (postNotice_bad_text_marks_without_notice (env_at 1000 (Some VUndefined))
           numeric_text_m1 (js "messaging:general") empty_world empty_world);
    try reflexivity; discriminate.
Defined.

Lemma postNotice_refused_channel_loses_notice_witness :
  let env := env_at 1000 (Some VUndefined) in
  let w1 := remembered env (get spaced_channel_m5 "id") empty_world in
  postNotice env spaced_channel_m5 empty_world = (Threw BackendError, w1) /\
  outbox w1 = outbox empty_world /\
  postNotice env spaced_channel_m5 w1 = (Ok tt, world_tick w1).
Proof.
  apply (postNotice_refused_channel_loses_notice (env_at 1000 (Some VUndefined))
           spaced_channel_m5 (js "messaging:bad id") empty_world empty_world);
    try reflexivity; discriminate.
Defined.

Lemma new_message_duplicate_makes_no_call_witness :
  let w := {| flaggedCache := [str "m2"]; cacheTimes := [(str "m2", 900%Z)];
              ticks := 0; outbox := []; console := [] |} in
  webhook (env_at 1000 None) (OtherBody (event "message.new" profane_m2)) w =
  (Ok {| status := 200; body := js "ok" |}, world_tick w).
Proof.
  apply (new_message_duplicate_makes_no_call (env_at 1000 None)
           (OtherBody (event "message.new" profane_m2))
           (event "message.new" profane_m2) (js "you fuck") _ 900%Z);
    try reflexivity; discriminate.
Defined.

Lemma ai_queue_without_usable_message_witness :
  webhook (env_at 1000 None) (OtherBody ai_event_m4) empty_world =
  (Ok {| status := 200; body := js "ok" |},
   world_call (getMessage (get (get ai_event_m4 "item") "message_id")) empty_world).
Proof.
  apply (ai_queue_without_usable_message (env_at 1000 None)
           (OtherBody ai_event_m4) ai_event_m4 empty_world); try reflexivity.
  left. reflexivity.
Defined.

(** ** The channel endpoint *)

Section ChannelEndpoint.
Context `{Builtins} `{!SdkHost}.
Variable settles : nat -> Settled.
Variable cfg : Config.

Lemma get_or_else_object (body : value) k :
  get (Sdk.or_else body (VObject 0 [])) k = get body k.
Proof.
  unfold Sdk.or_else. destruct (truthy body) eqn:E; [reflexivity|].
  destruct body; try reflexivity; discriminate.
Qed.

Lemma distinct_snoc (l : list value) (k : value) :
  distinct l -> existsb (same_value_zero k) l = false -> distinct (l ++ [k]).
Proof.
  unfold distinct. intros Hd Hk. induction Hd as [|a l Ha Hd IH]; simpl in *.
  - repeat constructor.
  - apply orb_false_iff in Hk as [Hka Hk]. constructor; [|now apply IH].
    apply Forall_app. split; [exact Ha|].
    constructor; [|constructor]. now rewrite same_value_zero_sym.
Qed.

Lemma Set_add_distinct (l : list value) (k : value) :
  distinct l -> distinct (Set_add k l).
Proof.
  intros Hd. unfold Set_add.
  destruct (existsb (same_value_zero k) l) eqn:E; [exact Hd|].
  now apply distinct_snoc.
Qed.

Lemma fold_Set_add (xs : list value) : forall s,
  distinct s ->
  distinct (fold_left (fun s k => Set_add k s) xs s) /\
  forall k, existsb (same_value_zero k) (fold_left (fun s k => Set_add k s) xs s) =
            existsb (same_value_zero k) s || existsb (same_value_zero k) xs.
Proof.
  induction xs as [|x xs IH]; intros s Hd; simpl.
  - split; [exact Hd|]. intros k. now rewrite orb_false_r.
  - destruct (IH (Set_add x s) (Set_add_distinct s x Hd)) as [Hdist Hmem].
    split; [exact Hdist|]. intros k. rewrite Hmem, Set_add_has.
    destruct (same_value_zero k x), (existsb (same_value_zero k) s); reflexivity.
Qed.

(** X14. The list of users that [/channel] upserts and makes members
    holds every given member, the creator and ["system-bot"], each of
    them once and nothing else. *)
Theorem unique_members_spec (members : list value) (createdById : value) :
  distinct (Sdk.unique_members members createdById) /\
  forall k,
    existsb (same_value_zero k) (Sdk.unique_members members createdById) =
    existsb (same_value_zero k) members ||
    same_value_zero k createdById ||
    same_value_zero k (VString (js "system-bot")).
Proof.
  unfold Sdk.unique_members.
  destruct (fold_Set_add (members ++ [createdById; VString (js "system-bot")]) [])
    as [Hdist Hmem]; [constructor|].
  split; [exact Hdist|]. intros k. rewrite Hmem, existsb_app. simpl.
  now rewrite orb_false_r, orb_assoc.
Qed.

(** X15. Without a channel id or without a non-empty array of members,
    [/channel] answers 400 and makes no call to the backend. *)
Theorem post_channel_bad_request (body : value) (w : SdkWorld) :
  valid_channel_request body = false ->
  Sdk.post_channel settles cfg body w =
    (Returned {| json_status := 400;
                 json_fields := [(js "error",
                                  VString (js "channelId and members[] required"))] |},
     w).
Proof.
  unfold valid_channel_request, Sdk.post_channel. cbv zeta.
  rewrite !get_or_else_object. intros Hv.
  destruct (truthy (get body "channelId")); simpl in *; [|reflexivity].
  destruct (get body "members") as [| | | | |r items|]; try reflexivity.
  destruct items; [reflexivity|discriminate].
Qed.

(** X16. A valid request to [/channel] is always answered, with 200 or
    500 and never with an exception: 200 exactly when the upsert and the
    handle succeed and the creation succeeds or fails with code 16, and
    then the members were added (whether that call succeeded or not) and
    the answer carries the handle's cid; any other failure gives 500. *)
Theorem post_channel_outcome (body : value) (w : SdkWorld) :
  valid_channel_request body = true ->
  let n := length (sdk_calls w) in
  let items := Sdk.array_items (get body "members") in
  let creator := Sdk.or_else (nth 0 items VUndefined) (VString (js "system-bot")) in
  let unique := Sdk.unique_members items creator in
  exists r w',
    Sdk.post_channel settles cfg body w = (Returned r, w') /\
    json_status r = (if channel_ensured settles n then 200 else 500)%Z /\
    (channel_ensured settles n = true ->
     exists handle,
       settles (n + 1) = Resolved handle /\
       json_fields r = [(js "cid", get handle "cid")] /\
       sdk_calls w' =
         sdk_calls w ++
         [upsertUsers unique;
          channel (CHANNEL_TYPE cfg) (get body "channelId") creator unique;
          channel_create handle;
          channel_addMembers handle items]).
Proof.
  intros Hv. cbv zeta. unfold valid_channel_request in Hv.
  apply andb_true_iff in Hv as [Hid Hm].
  assert (Hitems : exists r first rest,
             get body "members" = VArray r (first :: rest)).
  { destruct (get body "members") as [| | | | |r [|first rest]|]; try discriminate.
    now exists r, first, rest. }
  destruct Hitems as (r0 & first & rest & Em).
  unfold Sdk.post_channel, channel_ensured. cbv zeta.
  rewrite !get_or_else_object, Hid. rewrite Em.
  cbn [Sdk.is_array Sdk.array_items negb orb length Nat.eqb].
  set (its := first :: rest).
  set (cr := Sdk.or_else (nth 0 its VUndefined) (VString (js "system-bot"))).
  set (u := Sdk.unique_members its cr).
  unfold Sdk.try_catch at 1. unfold Sdk.bind at 1. unfold Sdk.sdk at 1.
  destruct (settles (length (sdk_calls w))) as [v0|e0].
  2:{ eexists; eexists. split; [reflexivity|]. split; [reflexivity|discriminate]. }
  unfold Sdk.bind at 1. unfold Sdk.sdk at 1. cbn [sdk_calls].
  rewrite length_app. simpl length.
  destruct (settles (length (sdk_calls w) + 1)) as [handle|e1].
  2:{ eexists; eexists. split; [reflexivity|]. split; [reflexivity|discriminate]. }
  unfold Sdk.bind at 1. unfold Sdk.try_catch at 1. unfold Sdk.bind at 1.
  unfold Sdk.sdk at 1. cbn [sdk_calls].
  rewrite !length_app. simpl length. rewrite <- Nat.add_assoc. simpl Nat.add.
  assert (Hadd : forall w1 : SdkWorld,
             exists w2,
               Sdk.try_catch
                 (Sdk.bind (Sdk.sdk settles (channel_addMembers handle its))
                    (fun _ => Sdk.ret tt)) (fun _ => Sdk.ret tt) w1 = (Returned tt, w2) /\
               sdk_calls w2 = sdk_calls w1 ++ [channel_addMembers handle its]).
  { intros w1. unfold Sdk.try_catch, Sdk.bind, Sdk.sdk.
    destruct (settles (length (sdk_calls w1))); eexists; split; reflexivity. }
  destruct (settles (length (sdk_calls w) + 2)) as [v2|e2].
  - unfold Sdk.ret at 1. unfold Sdk.bind at 1.
    match goal with |- context [Sdk.try_catch _ _ ?w1] =>
      destruct (Hadd w1) as (w2 & -> & Hc) end.
    eexists; eexists. split; [reflexivity|]. split; [reflexivity|].
    intros _. exists handle. repeat split. simpl. rewrite Hc. simpl.
    rewrite <- !app_assoc. reflexivity.
  - destruct (Sdk.has_code e2 16).
    + unfold Sdk.ret at 1. unfold Sdk.bind at 1.
      match goal with |- context [Sdk.try_catch _ _ ?w1] =>
        destruct (Hadd w1) as (w2 & -> & Hc) end.
      eexists; eexists. split; [reflexivity|]. split; [reflexivity|].
      intros _. exists handle. repeat split. simpl. rewrite Hc. simpl.
      rewrite <- !app_assoc. reflexivity.
    + eexists; eexists. split; [reflexivity|]. split; [reflexivity|discriminate].
Qed.

End ChannelEndpoint.

(** ** The start-up *)

Section Startup.
Context `{Builtins} `{!SdkHost}.
Variable settles : nat -> Settled.
Variable cfg : Config.

Lemma ToString_message (m : value) (w : SdkWorld) :
  string_or_absent m = true ->
  Sdk.ToString (Sdk.or_else m (VString [])) w = (Returned (string_of m), w).
Proof.
  intros Hm. unfold Sdk.or_else.
  destruct m as [| |b|n|s|r l|r l]; simpl in *; try discriminate; try reflexivity.
  - destruct b; [discriminate|reflexivity].
  - apply negb_true_iff in Hm. rewrite Hm. reflexivity.
  - destruct s; reflexivity.
Qed.

(** The last step of [ensureChannelTypeWithBlocklist]: the effective
    settings are fetched and logged, and a failure of the fetch is
    logged and dropped. *)
Lemma fetch_details_returns (w : SdkWorld) :
  exists w',
    Sdk.try_catch
      (Sdk.bind (Sdk.sdk settles (getChannelType (CHANNEL_TYPE cfg)))
         (fun t => Sdk.log (log_init_effective t)))
      (fun _ => Sdk.log log_init_no_details) w = (Returned tt, w') /\
    sdk_calls w' = sdk_calls w ++ [getChannelType (CHANNEL_TYPE cfg)].
Proof.
  unfold Sdk.try_catch, Sdk.bind, Sdk.sdk, Sdk.log.
  destruct (settles (length (sdk_calls w))); eexists; split; reflexivity.
Qed.

(** X17. [ensureChannelTypeWithBlocklist] tries the fallback blocklist
    only after the desired one was rejected as an invalid block list,
    and throws only when the fallback is rejected too; in every other
    run it goes on to fetch the effective settings and returns, whatever
    that fetch does.  (The errors' messages are strings or absent.) *)
Theorem ensureChannelTypeWithBlocklist_runs (w : SdkWorld) :
  (forall err, settles (length (sdk_calls w)) = Rejected err ->
               string_or_absent (get err "message") = true) ->
  let n := length (sdk_calls w) in
  let details := getChannelType (CHANNEL_TYPE cfg) in
  exists r w',
    Sdk.ensureChannelTypeWithBlocklist settles cfg w = (r, w') /\
    sdk_calls w' =
      sdk_calls w ++ update_desired cfg ::
      match settles n with
      | Resolved _ => [details]
      | Rejected err =>
          if invalid_blocklist_error err then
            update_fallback cfg ::
            match settles (n + 1) with
            | Resolved _ => [details]
            | Rejected _ => []
            end
          else [details]
      end /\
    r = match settles n with
        | Resolved _ => Returned tt
        | Rejected err =>
            if invalid_blocklist_error err then
              match settles (n + 1) with
              | Resolved _ => Returned tt
              | Rejected err' => Thrown err'
              end
            else Returned tt
        end.
Proof.
  intros Hmsg. cbv zeta.
  unfold Sdk.ensureChannelTypeWithBlocklist.
  unfold Sdk.bind at 1. unfold Sdk.try_catch at 1.
  unfold Sdk.update_blocklist at 1. unfold Sdk.bind at 1. unfold Sdk.sdk at 1.
  fold (update_desired cfg).
  destruct (settles (length (sdk_calls w))) as [v|err] eqn:E0.
  - unfold Sdk.log at 1.
    match goal with |- context [Sdk.try_catch _ _ ?w1] =>
      destruct (fetch_details_returns w1) as (w2 & -> & Hc) end.
    eexists; eexists. split; [reflexivity|]. split; [|reflexivity].
    rewrite Hc. simpl. now rewrite <- app_assoc.
  - specialize (Hmsg err eq_refl).
    unfold Sdk.bind at 1. rewrite (ToString_message _ _ Hmsg).
    fold (invalid_blocklist_error err).
    destruct (invalid_blocklist_error err).
    + unfold Sdk.bind at 1. unfold Sdk.log at 1.
      unfold Sdk.update_blocklist, Sdk.bind at 1. unfold Sdk.sdk at 1.
      fold (update_fallback cfg). cbn [sdk_calls].
      rewrite length_app. simpl length.
      destruct (settles (length (sdk_calls w) + 1)) as [v1|e1].
      * unfold Sdk.log at 1.
        match goal with |- context [Sdk.try_catch _ _ ?w1] =>
          destruct (fetch_details_returns w1) as (w2 & -> & Hc) end.
        eexists; eexists. split; [reflexivity|]. split; [|reflexivity].
        rewrite Hc. simpl. rewrite <- !app_assoc. reflexivity.
      * eexists; eexists. split; [reflexivity|]. split; [|reflexivity].
        simpl. rewrite <- !app_assoc. reflexivity.
    + unfold Sdk.log at 1.
      match goal with |- context [Sdk.try_catch _ _ ?w1] =>
        destruct (fetch_details_returns w1) as (w2 & -> & Hc) end.
      eexists; eexists. split; [reflexivity|]. split; [|reflexivity].
      rewrite Hc. simpl. now rewrite <- app_assoc.
Qed.

(** X18. When the desired blocklist is rejected as invalid and the
    fallback is rejected as well, the start-up ends there with the
    second error: the effective settings are not fetched and the user
    ["system-bot"] is not upserted. *)
Theorem startup_stops_when_fallback_rejected (w : SdkWorld) (err err' : value) :
  settles (length (sdk_calls w)) = Rejected err ->
  string_or_absent (get err "message") = true ->
  invalid_blocklist_error err = true ->
  settles (length (sdk_calls w) + 1) = Rejected err' ->
  Sdk.startup settles cfg w =
    (Thrown err',
     sdk_called (update_fallback cfg)
       (sdk_logged log_init_falling_back (sdk_called (update_desired cfg) w))).
Proof.
  intros E0 Hmsg Hinv E1.
  unfold Sdk.startup, Sdk.bind at 1. unfold Sdk.ensureChannelTypeWithBlocklist.
  unfold Sdk.bind at 1. unfold Sdk.try_catch at 1.
  unfold Sdk.update_blocklist at 1. unfold Sdk.bind at 1. unfold Sdk.sdk at 1.
  rewrite E0. unfold Sdk.bind at 1. rewrite (ToString_message _ _ Hmsg).
  fold (invalid_blocklist_error err). rewrite Hinv.
  unfold Sdk.bind at 1. unfold Sdk.log at 1.
  unfold Sdk.update_blocklist, Sdk.bind at 1. unfold Sdk.sdk at 1.
  cbn [sdk_calls]. rewrite length_app. simpl length. rewrite E1. reflexivity.
Qed.

End Startup.

(** ** The start-up and the channel endpoint on the sample backend *)

Lemma post_channel_bad_request_witness :
  Sdk.post_channel channel_exists default_config
    (obj [("channelId", str "demo-general"); ("members", VArray 1 [])]%string)
    sdk_start =
  (Returned {| json_status := 400;
               json_fields := [(js "error",
                                VString (js "channelId and members[] required"))] |},
   sdk_start).
Proof.
  apply (post_channel_bad_request channel_exists default_config). reflexivity.
Defined.

Lemma post_channel_outcome_witness :
  let n := length (sdk_calls sdk_start) in
  let items := Sdk.array_items (get demo_channel_request "members") in
  let creator := Sdk.or_else (nth 0 items VUndefined) (VString (js "system-bot")) in
  let unique := Sdk.unique_members items creator in
  exists r w',
    Sdk.post_channel channel_exists default_config demo_channel_request sdk_start =
      (Returned r, w') /\
    json_status r = (if channel_ensured channel_exists n then 200 else 500)%Z /\
    (channel_ensured channel_exists n = true ->
     exists handle,
       channel_exists (n + 1) = Resolved handle /\
       json_fields r = [(js "cid", get handle "cid")] /\
       sdk_calls w' =
         sdk_calls sdk_start ++
         [upsertUsers unique;
          channel (CHANNEL_TYPE default_config)
            (get demo_channel_request "channelId") creator unique;
          channel_create handle;
          channel_addMembers handle items]).
Proof.
  apply (post_channel_outcome channel_exists default_config demo_channel_request
           sdk_start).
  reflexivity.
Defined.

Example post_channel_existing_channel :
  fst (Sdk.post_channel channel_exists default_config demo_channel_request sdk_start) =
    Returned {| json_status := 200;
                json_fields := [(js "cid", str "messaging:demo-general")] |} /\
  Sdk.unique_members [str "alice"; str "bob"; str "alice"] (str "alice") =
    [str "alice"; str "bob"; str "system-bot"].
Proof. split; reflexivity. Qed.

Lemma ensureChannelTypeWithBlocklist_runs_witness :
  let n := length (sdk_calls sdk_start) in
  let details := getChannelType (CHANNEL_TYPE default_config) in
  exists r w',
    Sdk.ensureChannelTypeWithBlocklist always_invalid_name default_config sdk_start =
      (r, w') /\
    sdk_calls w' =
      sdk_calls sdk_start ++ update_desired default_config ::
      match always_invalid_name n with
      | Resolved _ => [details]
      | Rejected err =>
          if invalid_blocklist_error err then
            update_fallback default_config ::
            match always_invalid_name (n + 1) with
            | Resolved _ => [details]
            | Rejected _ => []
            end
          else [details]
      end /\
    r = match always_invalid_name n with
        | Resolved _ => Returned tt
        | Rejected err =>
            if invalid_blocklist_error err then
              match always_invalid_name (n + 1) with
              | Resolved _ => Returned tt
              | Rejected err' => Thrown err'
              end
            else Returned tt
        end.
Proof.
  apply (ensureChannelTypeWithBlocklist_runs always_invalid_name default_config
           sdk_start).
  intros err E. inversion E. reflexivity.
Defined.

Lemma startup_stops_when_fallback_rejected_witness :
  Sdk.startup always_invalid_name default_config sdk_start =
  (Thrown invalid_name_error,
   sdk_called (update_fallback default_config)
     (sdk_logged log_init_falling_back
        (sdk_called (update_desired default_config) sdk_start))).
Proof.
  apply (startup_stops_when_fallback_rejected always_invalid_name default_config
           sdk_start invalid_name_error invalid_name_error); reflexivity.
Defined.

(** ** The profanity test and the flag memory, once more *)

Section TestAndMemory.
Import RegExp PatternWords Redact.
Context `{Numbers}.
Variable env : Env.

(** X19. [PROFANITY_RE.test] holds of a text exactly when the text
    holds one of the seven tokens of the spec's profanity set, up to the
    case of its letters, as a whole word: between two code units that
    are no letters, digits or underscores, or the ends of the text.  The
    set, the comparison and the word characters are those of
    [RedactSpec]. *)
Theorem test_finds_whole_words (s : jsstring) :
  test s = true <->
  exists pre w post,
    s = pre ++ w ++ post /\ RedactSpec.is_profane w = true /\
    RedactSpec.is_word_unit (last_opt pre) = false /\
    RedactSpec.is_word_unit (head_opt post) = false.
Proof.
  rewrite test_word_runs. split.
  - intros E. apply existsb_exists in E as (w & Hin & Hw).
    destruct (in_split _ _ Hin) as (l1 & l2 & E).
    destruct (is_profane_word _ Hw) as (Hne & Hall & _).
    assert (Hhead : is_word (head_opt w) = true).
    { destruct w; [congruence|]. simpl in Hall |- *.
      now apply andb_true_iff in Hall as [-> _]. }
    destruct (word_runs_whole _ _ _ _ E Hhead) as [Hpre Hpost].
    exists (concat l1), w, (concat l2).
    rewrite spec_is_profane, !is_word_unit_is_word. repeat split; auto.
    rewrite <- (concat_word_runs s) at 1. rewrite E, concat_app. reflexivity.
  - intros (pre & w & post & -> & Hw & Hpre & Hpost).
    rewrite spec_is_profane in Hw. rewrite is_word_unit_is_word in Hpre, Hpost.
    destruct (is_profane_word _ Hw) as (Hne & Hall & _).
    rewrite (word_runs_app _ _ Hpre), (word_runs_word _ _ Hne Hall Hpost).
    rewrite existsb_app. simpl. rewrite Hw. now rewrite orb_true_r.
Qed.

(** X20. A lookup right after [rememberFlagged] finds the id recently
    flagged, whatever the flag memory held before: the clock must not
    have read 0 at the mark, nor run past the TTL since. *)
Theorem remember_then_lookup (id : value) (w : World) :
  clock env (ticks w) <> 0%Z ->
  (clock env (S (ticks w)) - clock env (ticks w) <= FLAG_TTL_MS)%Z ->
  let w1 := snd (rememberFlagged env id w) in
  wasFlaggedRecently env id w1 = (Ok true, world_tick w1).
Proof.
  intros Hclock Httl. rewrite rememberFlagged_eq. simpl snd.
  apply (wasFlaggedRecently_entry env id (remembered env id w) (clock env (ticks w)));
    [apply Map_get_set_same|exact Hclock|exact Httl].
Qed.

End TestAndMemory.

Lemma remember_then_lookup_witness :
  let env := env_at 400000 None in
  let w := {| flaggedCache := [str "m1"]; cacheTimes := [(str "m1", 1000%Z)];
              ticks := 0; outbox := []; console := [] |} in
  let w1 := snd (rememberFlagged env (str "m1") w) in
  wasFlaggedRecently env (str "m1") w1 = (Ok true, world_tick w1).
Proof.
  apply (remember_then_lookup (env_at 400000 None) (str "m1")); [discriminate|].
  discriminate.
Defined.
